(** * Sweepers of the S3 Control service (internal/service/s3control/sweep.go)

    A shallow embedding of the four discovery functions registered by
    [init], of the Go error values they build, and of the collaborators
    they call, followed by the properties of the sweep specification. *)

From Stdlib Require Import Ascii DecimalString.
From stdpp Require Import base strings list gmap.

(** ** Go error values *)

(** The [error] interface, restricted to the three dynamic types that
    flow through the sweepers: a plain error carrying its text
    ([errors.New], [fmt.Errorf] without [%w], errors of collaborators),
    an error built by [fmt.Errorf] with one [%w] operand, and a
    [*multierror.Error]. *)
#[warnings="-register-all"]
Inductive error : Type :=
| ErrorString (s : string)
| WrapError (msg : string) (err : error)
| MultiError (Errors : list error).

(** [strings.Join] *)
Fixpoint Join (elems : list string) (sep : string) : string :=
  match elems with
  | [] => ""
  | [s] => s
  | s :: rest => s +:+ sep +:+ Join rest sep
  end.

Definition Itoa (n : nat) : string := NilZero.string_of_uint (Nat.to_uint n).

Definition tab : string := String (Stdlib.Strings.Ascii.ascii_of_nat 9) "".
Definition nl : string := String (Stdlib.Strings.Ascii.ascii_of_nat 10) "".

(** [multierror.ListFormatFunc], the default text of a [*multierror.Error],
    over the texts of its members. *)
Definition ListFormatFunc (es : list string) : string :=
  match es with
  | [e] => "1 error occurred:" +:+ nl +:+ tab +:+ "* " +:+ e +:+ nl +:+ nl
  | _ =>
      Itoa (length es) +:+ " errors occurred:" +:+ nl +:+ tab
        +:+ Join (map (fun e => "* " +:+ e) es) (nl +:+ tab) +:+ nl +:+ nl
  end.

(** The [Error()] method. *)
Fixpoint Error (e : error) : string :=
  match e with
  | ErrorString s => s
  | WrapError msg _ => msg
  | MultiError es => ListFormatFunc (map Error es)
  end.

(** [fmt.Errorf(prefix + "%s", err)]: the operand is only printed. *)
Definition Errorf_s (prefix : string) (err : error) : error :=
  ErrorString (prefix +:+ Error err).

(** [fmt.Errorf(prefix + "%w", err)]: the operand is printed and wrapped. *)
Definition Errorf_w (prefix : string) (err : error) : error :=
  WrapError (prefix +:+ Error err) err.

(** A variable of type [*multierror.Error]: [None] is the nil pointer. *)
Definition multierror : Type := option (list error).

(** [multierror.Append(sweeperErrs, err)] for an operand [err] that is not
    itself a [*multierror.Error], which is the only use in this file. *)
Definition Append (errs : multierror) (err : error) : multierror :=
  match errs with
  | None => Some [err]
  | Some es => Some (es ++ [err])
  end.

(** The [ErrorOrNil] method of [*multierror.Error]. *)
Definition ErrorOrNil (errs : multierror) : option error :=
  match errs with
  | None => None
  | Some [] => None
  | Some es => Some (MultiError es)
  end.

(** The members of a [*multierror.Error] variable. *)
Definition Errors_of (errs : multierror) : list error := default [] errs.

(** [contains e e'] : [e'] is reachable from [e] through [Unwrap] and
    through the members of a multierror, the chain [errors.Is] walks. *)
Inductive contains : error → error → Prop :=
| contains_here e : contains e e
| contains_wrapped msg e e' : contains e e' → contains (WrapError msg e) e'
| contains_member es e e' : e ∈ es → contains e e' → contains (MultiError es) e'.

(** [aws.ToString]: the empty string for a nil pointer. *)
Definition ToString (p : option string) : string := default "" p.

(** ** Collaborators: backend items, paginators, clients *)

(** The managed-resource descriptors of this package
    ([resourceAccessPoint()] and its siblings). *)
Inductive Resource : Type :=
| resourceAccessPoint
| resourceMultiRegionAccessPoint
| resourceObjectLambdaAccessPoint
| resourceStorageLensConfiguration.

(** The fields of the listed items that the sweepers read. *)
Record AccessPoint := { AccessPointArn : option string }.
Record MultiRegionAccessPointReport := { mrap_Name : option string }.
Record ObjectLambdaAccessPoint := { olap_Name : option string }.
Record ListStorageLensConfigurationEntry := { Id : option string }.

(** A paginator of the SDK, seen from the loop
    [for pages.HasMorePages() { page, err := pages.NextPage(ctx) ... }]:
    either [HasMorePages()] is false, or the next [NextPage] call
    returns a page and leaves a paginator behind, or it returns an error. *)
Inductive Paginator (A : Type) : Type :=
| NoMorePages
| NextPageOK (page : list A) (rest : Paginator A)
| NextPageErr (err : error).
Arguments NoMorePages {A}.
Arguments NextPageOK {A} page rest.
Arguments NextPageErr {A} err.

(** The S3 Control connection: one paginated listing per resource kind,
    started from the [AccountId] of the request. *)
Record S3Control := {
  ListAccessPoints : string → Paginator AccessPoint;
  ListMultiRegionAccessPoints : string → Paginator MultiRegionAccessPointReport;
  ListAccessPointsForObjectLambda : string → Paginator ObjectLambdaAccessPoint;
  ListStorageLensConfigurations : string → Paginator ListStorageLensConfigurationEntry
}.

(** [*conns.AWSClient]: the account, the connection, and the outcome of the
    delete call of a resource, by descriptor and identifier. *)
Record AWSClient := {
  AccountID : string;
  S3ControlClient : S3Control;
  DeleteResource : Resource → string → option error
}.

(** [sweep.Sweepable] as built by [sweep.NewSweepResource(r, d, client)],
    where [d] carries the identifier set by [d.SetId]. *)
Record Sweepable := NewSweepResource {
  sr_resource : Resource;
  sr_Id : string;
  sr_meta : AWSClient
}.

(** The deletion a [Sweepable] is bound to. *)
Definition Sweepable_Delete (r : Sweepable) : option error :=
  DeleteResource (sr_meta r) (sr_resource r) (sr_Id r).

(** ** Effects *)

(** What a sweeper does to the outside world, in order. *)
Inductive event : Type :=
| Log (msg : string)
| GetClient (region : string)
| ListCall (r : Resource) (accountID : string)
| Orchestrate (sweepResources : list Sweepable)
| Delete (r : Sweepable).

(** A computation with a log of its effects. *)
Definition Sweep (A : Type) : Type := A * list event.

#[global] Instance Sweep_ret : MRet Sweep := λ A a, (a, []).
#[global] Instance Sweep_bind : MBind Sweep :=
  λ A B f m, let '(a, t) := m in let '(b, t') := f a in (b, t ++ t').

Definition emit (e : event) : Sweep unit := (tt, [e]).
Definition Printf (msg : string) : Sweep unit := emit (Log msg).

Definition result {A} (m : Sweep A) : A := fst m.
Definition trace {A} (m : Sweep A) : list event := snd m.

(** Calls that reach the backend: client acquisition, listing, deletion. *)
Definition is_backend_call (e : event) : bool :=
  match e with
  | GetClient _ | ListCall _ _ | Delete _ => true
  | Log _ | Orchestrate _ => false
  end.

Definition backend_calls (t : list event) : list event :=
  filter (λ e, is_backend_call e = true) t.

(** The batches handed to the orchestrator, and the deletions attempted. *)
Definition orchestrated (t : list event) : list (list Sweepable) :=
  omap (λ e, match e with Orchestrate rs => Some rs | _ => None end) t.

Definition deletions (t : list event) : list Sweepable :=
  omap (λ e, match e with Delete r => Some r | _ => None end) t.

(** How a paging loop ends: by a [return] inside the loop, or by running
    out of pages with the loop's variables in a final state. *)
Inductive loop_exit (S : Type) : Type :=
| Returned (err : option error)
| Finished (s : S).
Arguments Returned {S} err.
Arguments Finished {S} s.

(** Region identifiers of package [names]. *)
Definition USWest2RegionID : string := "us-west-2".
Definition USGovEast1RegionID : string := "us-gov-east-1".
Definition USGovWest1RegionID : string := "us-gov-west-1".

(** ** The orchestrator *)

(** Modelled from the spec: [sweep.SweepOrchestrator] (package
    internal/sweep) is not among the sources.  Section 4.5: for each
    Sweepable, invoke its deletion; a failure on one does not prevent the
    attempts on the rest; all failures are aggregated into one error
    value, absent when the sequence is empty or all deletions succeed. *)
Fixpoint SweepOrchestrator_each (sweepables : list Sweepable) (errs : multierror)
  : Sweep multierror :=
  match sweepables with
  | [] => mret errs
  | sweepable :: rest =>
      emit (Delete sweepable);;
      match Sweepable_Delete sweepable with
      | Some err => SweepOrchestrator_each rest (Append errs err)
      | None => SweepOrchestrator_each rest errs
      end
  end.

(** Modelled from the spec: the entry point [sweep.SweepOrchestrator],
    which is not among the sources; it runs the batch and returns the
    aggregate, absent when nothing failed (section 4.5). *)
Definition SweepOrchestrator (sweepables : list Sweepable) : Sweep (option error) :=
  emit (Orchestrate sweepables);;
  errs ← SweepOrchestrator_each sweepables None;
  mret (ErrorOrNil errs).

(** ** The discovery functions *)

(** The collaborators a sweeper run depends on: the outcome of
    [sweep.SharedRegionalSweepClient] per region, the classifier behind
    [awsv2.SkipSweepError] on a non-nil error, and the identifier helpers
    of the package (access_point.go and its siblings), used as opaque
    functions. *)
Record Env := {
  sharedClient : string → AWSClient + error;
  skipClass : error → bool;
  AccessPointCreateResourceID : string → string + error;
  MultiRegionAccessPointCreateResourceID : string → string → string;
  ObjectLambdaAccessPointCreateResourceID : string → string → string;
  StorageLensConfigurationCreateResourceID : string → string → string
}.

(** [resource.Sweeper] *)
Record Sweeper := {
  Name : string;
  F : string → Sweep (option error);
  Dependencies : list string
}.

Section Sweepers.

Variable env : Env.

Definition SharedRegionalSweepClient (region : string) : Sweep (AWSClient + error) :=
  emit (GetClient region);; mret (sharedClient env region).

(** Modelled from the spec: [awsv2.SkipSweepError] (package
    internal/sweep/awsv2) is not among the sources.  Section 4.3: the
    classifier inspects an error returned from a listing call; the
    absence of an error is never skip-worthy. *)
Definition SkipSweepError (err : option error) : bool :=
  match err with
  | None => false
  | Some e => skipClass env e
  end.

(** [%s] applied to an [error] operand. *)
Definition fmt_s (err : option error) : string :=
  match err with
  | None => "%!s(<nil>)"
  | Some e => Error e
  end.

(** *** sweepAccessPoints *)

(** [for _, v := range page.AccessPointList { ... }] *)
Fixpoint sweepAccessPoints_range (client : AWSClient) (AccessPointList : list AccessPoint)
    (sweepResources : list Sweepable) (sweeperErrs : multierror)
  : list Sweepable * multierror :=
  match AccessPointList with
  | [] => (sweepResources, sweeperErrs)
  | v :: rest =>
      match AccessPointCreateResourceID env (ToString (AccessPointArn v)) with
      | inr err =>
          sweepAccessPoints_range client rest sweepResources (Append sweeperErrs err)
      | inl id =>
          sweepAccessPoints_range client rest
            (sweepResources ++ [NewSweepResource resourceAccessPoint id client])
            sweeperErrs
      end
  end.

(** [for pages.HasMorePages() { ... }] *)
Fixpoint sweepAccessPoints_pages (region : string) (client : AWSClient)
    (pages : Paginator AccessPoint)
    (sweepResources : list Sweepable) (sweeperErrs : multierror)
  : Sweep (loop_exit (list Sweepable * multierror)) :=
  match pages with
  | NoMorePages => mret (Finished (sweepResources, sweeperErrs))
  | NextPageErr err =>
      emit (ListCall resourceAccessPoint (AccountID client));;
      if SkipSweepError (Some err) then
        Printf ("[WARN] Skipping S3 Access Point sweep for " +:+ region +:+ ": "
                  +:+ fmt_s (Some err));;
        mret (Returned (ErrorOrNil sweeperErrs))
      else
        mret (Returned (Some (Errorf_w
          ("error listing S3 Access Points (" +:+ region +:+ "): ") err)))
  | NextPageOK page rest =>
      emit (ListCall resourceAccessPoint (AccountID client));;
      if SkipSweepError None then
        Printf ("[WARN] Skipping S3 Access Point sweep for " +:+ region +:+ ": "
                  +:+ fmt_s None);;
        mret (Returned (ErrorOrNil sweeperErrs))
      else
        let '(sweepResources, sweeperErrs) :=
          sweepAccessPoints_range client page sweepResources sweeperErrs in
        sweepAccessPoints_pages region client rest sweepResources sweeperErrs
  end.

Definition sweepAccessPoints (region : string) : Sweep (option error) :=
  c ← SharedRegionalSweepClient region;
  match c with
  | inr err => mret (Some (Errorf_s "error getting client: " err))
  | inl client =>
      let conn := S3ControlClient client in
      let accountID := AccountID client in
      exit ← sweepAccessPoints_pages region client (ListAccessPoints conn accountID) [] None;
      match exit with
      | Returned err => mret err
      | Finished (sweepResources, sweeperErrs) =>
          err ← SweepOrchestrator sweepResources;
          let sweeperErrs :=
            match err with
            | Some err =>
                Append sweeperErrs (Errorf_w
                  ("error sweeping S3 Access Points (" +:+ region +:+ "): ") err)
            | None => sweeperErrs
            end in
          mret (ErrorOrNil sweeperErrs)
      end
  end.

(** *** sweepMultiRegionAccessPoints *)

Fixpoint sweepMultiRegionAccessPoints_range (client : AWSClient) (accountID : string)
    (AccessPoints : list MultiRegionAccessPointReport) (sweepResources : list Sweepable)
  : list Sweepable :=
  match AccessPoints with
  | [] => sweepResources
  | v :: rest =>
      sweepMultiRegionAccessPoints_range client accountID rest
        (sweepResources ++ [NewSweepResource resourceMultiRegionAccessPoint
           (MultiRegionAccessPointCreateResourceID env accountID (ToString (mrap_Name v)))
           client])
  end.

Fixpoint sweepMultiRegionAccessPoints_pages (region : string) (client : AWSClient)
    (accountID : string) (pages : Paginator MultiRegionAccessPointReport)
    (sweepResources : list Sweepable)
  : Sweep (loop_exit (list Sweepable)) :=
  match pages with
  | NoMorePages => mret (Finished sweepResources)
  | NextPageErr err =>
      emit (ListCall resourceMultiRegionAccessPoint accountID);;
      if SkipSweepError (Some err) then
        Printf ("[WARN] Skipping S3 Multi-Region Access Point sweep for " +:+ region
                  +:+ ": " +:+ fmt_s (Some err));;
        mret (Returned None)
      else
        mret (Returned (Some (Errorf_w
          ("error listing S3 Multi-Region Access Points (" +:+ region +:+ "): ") err)))
  | NextPageOK page rest =>
      emit (ListCall resourceMultiRegionAccessPoint accountID);;
      if SkipSweepError None then
        Printf ("[WARN] Skipping S3 Multi-Region Access Point sweep for " +:+ region
                  +:+ ": " +:+ fmt_s None);;
        mret (Returned None)
      else
        sweepMultiRegionAccessPoints_pages region client accountID rest
          (sweepMultiRegionAccessPoints_range client accountID page sweepResources)
  end.

Definition sweepMultiRegionAccessPoints (region : string) : Sweep (option error) :=
  if negb (String.eqb region USWest2RegionID) then
    Printf ("[WARN] Skipping S3 Multi-Region Access Point sweep for region: " +:+ region);;
    mret None
  else
    c ← SharedRegionalSweepClient region;
    match c with
    | inr err => mret (Some (Errorf_s "error getting client: " err))
    | inl client =>
        let conn := S3ControlClient client in
        let accountID := AccountID client in
        exit ← sweepMultiRegionAccessPoints_pages region client accountID
                 (ListMultiRegionAccessPoints conn accountID) [];
        match exit with
        | Returned err => mret err
        | Finished sweepResources =>
            err ← SweepOrchestrator sweepResources;
            match err with
            | Some err =>
                mret (Some (Errorf_w
                  ("error sweeping S3 Multi-Region Access Points (" +:+ region +:+ "): ")
                  err))
            | None => mret None
            end
        end
    end.

(** *** sweepObjectLambdaAccessPoints *)

Fixpoint sweepObjectLambdaAccessPoints_range (client : AWSClient) (accountID : string)
    (ObjectLambdaAccessPointList : list ObjectLambdaAccessPoint)
    (sweepResources : list Sweepable)
  : list Sweepable :=
  match ObjectLambdaAccessPointList with
  | [] => sweepResources
  | v :: rest =>
      sweepObjectLambdaAccessPoints_range client accountID rest
        (sweepResources ++ [NewSweepResource resourceObjectLambdaAccessPoint
           (ObjectLambdaAccessPointCreateResourceID env accountID (ToString (olap_Name v)))
           client])
  end.

Fixpoint sweepObjectLambdaAccessPoints_pages (region : string) (client : AWSClient)
    (accountID : string) (pages : Paginator ObjectLambdaAccessPoint)
    (sweepResources : list Sweepable)
  : Sweep (loop_exit (list Sweepable)) :=
  match pages with
  | NoMorePages => mret (Finished sweepResources)
  | NextPageErr err =>
      emit (ListCall resourceObjectLambdaAccessPoint accountID);;
      if SkipSweepError (Some err) then
        Printf ("[WARN] Skipping S3 Object Lambda Access Point sweep for " +:+ region
                  +:+ ": " +:+ fmt_s (Some err));;
        mret (Returned None)
      else
        mret (Returned (Some (Errorf_w
          ("error listing S3 Object Lambda Access Points (" +:+ region +:+ "): ") err)))
  | NextPageOK page rest =>
      emit (ListCall resourceObjectLambdaAccessPoint accountID);;
      if SkipSweepError None then
        Printf ("[WARN] Skipping S3 Object Lambda Access Point sweep for " +:+ region
                  +:+ ": " +:+ fmt_s None);;
        mret (Returned None)
      else
        sweepObjectLambdaAccessPoints_pages region client accountID rest
          (sweepObjectLambdaAccessPoints_range client accountID page sweepResources)
  end.

Definition sweepObjectLambdaAccessPoints (region : string) : Sweep (option error) :=
  c ← SharedRegionalSweepClient region;
  match c with
  | inr err => mret (Some (Errorf_s "error getting client: " err))
  | inl client =>
      let conn := S3ControlClient client in
      let accountID := AccountID client in
      exit ← sweepObjectLambdaAccessPoints_pages region client accountID
               (ListAccessPointsForObjectLambda conn accountID) [];
      match exit with
      | Returned err => mret err
      | Finished sweepResources =>
          err ← SweepOrchestrator sweepResources;
          match err with
          | Some err =>
              mret (Some (Errorf_w
                ("error sweeping S3 Object Lambda Access Points (" +:+ region +:+ "): ")
                err))
          | None => mret None
          end
      end
  end.

(** *** sweepStorageLensConfigurations *)

Fixpoint sweepStorageLensConfigurations_range (client : AWSClient) (accountID : string)
    (StorageLensConfigurationList : list ListStorageLensConfigurationEntry)
    (sweepResources : list Sweepable)
  : list Sweepable :=
  match StorageLensConfigurationList with
  | [] => sweepResources
  | v :: rest =>
      let configID := ToString (Id v) in
      if String.eqb configID "default-account-dashboard" then
        sweepStorageLensConfigurations_range client accountID rest sweepResources
      else
        sweepStorageLensConfigurations_range client accountID rest
          (sweepResources ++ [NewSweepResource resourceStorageLensConfiguration
             (StorageLensConfigurationCreateResourceID env accountID configID) client])
  end.

Fixpoint sweepStorageLensConfigurations_pages (region : string) (client : AWSClient)
    (accountID : string) (pages : Paginator ListStorageLensConfigurationEntry)
    (sweepResources : list Sweepable)
  : Sweep (loop_exit (list Sweepable)) :=
  match pages with
  | NoMorePages => mret (Finished sweepResources)
  | NextPageErr err =>
      emit (ListCall resourceStorageLensConfiguration accountID);;
      if SkipSweepError (Some err) then
        Printf ("[WARN] Skipping S3 Storage Lens Configuration sweep for " +:+ region
                  +:+ ": " +:+ fmt_s (Some err));;
        mret (Returned None)
      else
        mret (Returned (Some (Errorf_w
          ("error listing S3 Storage Lens Configurations (" +:+ region +:+ "): ") err)))
  | NextPageOK page rest =>
      emit (ListCall resourceStorageLensConfiguration accountID);;
      if SkipSweepError None then
        Printf ("[WARN] Skipping S3 Storage Lens Configuration sweep for " +:+ region
                  +:+ ": " +:+ fmt_s None);;
        mret (Returned None)
      else
        sweepStorageLensConfigurations_pages region client accountID rest
          (sweepStorageLensConfigurations_range client accountID page sweepResources)
  end.

Definition sweepStorageLensConfigurations (region : string) : Sweep (option error) :=
  if String.eqb region USGovEast1RegionID || String.eqb region USGovWest1RegionID then
    Printf ("[WARN] Skipping S3 Storage Lens Configuration sweep for region: " +:+ region);;
    mret None
  else
    c ← SharedRegionalSweepClient region;
    match c with
    | inr err => mret (Some (Errorf_s "error getting client: " err))
    | inl client =>
        let conn := S3ControlClient client in
        let accountID := AccountID client in
        exit ← sweepStorageLensConfigurations_pages region client accountID
                 (ListStorageLensConfigurations conn accountID) [];
        match exit with
        | Returned err => mret err
        | Finished sweepResources =>
            err ← SweepOrchestrator sweepResources;
            match err with
            | Some err =>
                mret (Some (Errorf_w
                  ("error sweeping S3 Storage Lens Configurations (" +:+ region +:+ "): ")
                  err))
            | None => mret None
            end
        end
    end.

(** *** Registration *)

(** [resource.AddTestSweepers]: adding a name twice is fatal. *)
Definition AddTestSweepers (name : string) (s : Sweeper)
    (sweeperFuncs : gmap string Sweeper) : option (gmap string Sweeper) :=
  match sweeperFuncs !! name with
  | Some _ => None
  | None => Some (<[name := s]> sweeperFuncs)
  end.

(** [init], from the empty table of the testing framework. *)
Definition init : option (gmap string Sweeper) :=
  sweeperFuncs ← AddTestSweepers "aws_s3_access_point"
    {| Name := "aws_s3_access_point";
       F := sweepAccessPoints;
       Dependencies := ["aws_s3control_object_lambda_access_point"] |} ∅;
  sweeperFuncs ← AddTestSweepers "aws_s3control_multi_region_access_point"
    {| Name := "aws_s3control_multi_region_access_point";
       F := sweepMultiRegionAccessPoints;
       Dependencies := [] |} sweeperFuncs;
  sweeperFuncs ← AddTestSweepers "aws_s3control_object_lambda_access_point"
    {| Name := "aws_s3control_object_lambda_access_point";
       F := sweepObjectLambdaAccessPoints;
       Dependencies := [] |} sweeperFuncs;
  AddTestSweepers "aws_s3control_storage_lens_configuration"
    {| Name := "aws_s3control_storage_lens_configuration";
       F := sweepStorageLensConfigurations;
       Dependencies := [] |} sweeperFuncs.

End Sweepers.

(** [init] fills the table: no name is registered twice. *)
Definition sweeperFuncs (env : Env) : gmap string Sweeper := default ∅ (init env).

(** ** The invoking harness *)

(** What the harness does, in order: it starts a sweeper, the sweeper
    acts, the sweeper returns. *)
Inductive harness_event : Type :=
| Begin (name : string)
| Inside (name : string) (e : event)
| End (name : string) (err : option error).

Section Harness.

Variable sweepers : gmap string Sweeper.
Variable region : string.

(** Modelled from the spec: the harness that runs the registered
    sweepers (package helper/resource of the testing framework) is not
    among the sources.  Sections 5 and 6: it resolves the dependency
    order among the registered kinds, a kind's sweep does not start
    until all its declared dependencies have completed, each kind is
    run once, and a failing kind does not prevent the others from
    running.  [ran] lists the kinds that have completed; [fuel] bounds
    the depth of the dependency recursion. *)
Fixpoint runSweeperWithRegion (fuel : nat) (name : string) (ran : list string)
  : list string * list harness_event :=
  match fuel with
  | 0 => (ran, [])
  | S fuel =>
      match sweepers !! name with
      | None => (ran, [])
      | Some s =>
          let '(ran, t) :=
            foldl (λ '(ran, t) dep,
                     let '(ran, t') := runSweeperWithRegion fuel dep ran in
                     (ran, t ++ t'))
                  (ran, []) (Dependencies s) in
          if bool_decide (name ∈ ran) then (ran, t)
          else
            let '(err, t') := F s region in
            (name :: ran, t ++ [Begin name] ++ map (Inside name) t' ++ [End name err])
      end
  end.

(** Modelled from the spec: a run of the full registry, visiting the
    registered names in the order [order] (the iteration order of the
    table is not fixed). *)
Definition runSweepers (order : list string) : list string * list harness_event :=
  foldl (λ '(ran, t) name,
           let '(ran, t') := runSweeperWithRegion (S (size sweepers)) name ran in
           (ran, t ++ t'))
        ([], []) order.

End Harness.

(** ** The identifier codec *)

Section Codec.

(** The delimiter of the codec. *)
Variable sep : ascii.

(** [strings.Split] on a one-character separator. *)
Fixpoint Split (s : string) : list string :=
  match s with
  | EmptyString => [""]
  | String c s' =>
      if bool_decide (c = sep) then "" :: Split s'
      else
        match Split s' with
        | part :: parts => String c part :: parts
        | [] => [String c ""]
        end
  end.

(** Modelled from the spec: the identifier helpers of the resource
    kinds are not among the sources.  Sections 2 and 3: a natural key
    is one or more strings, its identifier is the delimited string of
    its components, and decoding splits at the delimiter. *)
Definition encode (key : list string) : string := Join key (String sep "").

(** Modelled from the spec: the decoding half of the identifier helpers,
    which are not among the sources; the structured key is read back by
    splitting at the delimiter (section 3). *)
Definition decode (id : string) : list string := Split id.

(** The delimiter occurs in [s]. *)
Fixpoint has_sep (s : string) : bool :=
  match s with
  | EmptyString => false
  | String c s' => bool_decide (c = sep) || has_sep s'
  end.

(** Modelled from the spec: the valid natural keys of the identifier
    helpers, which are not among the sources; a key has at least one
    component and the delimiter appears inside none of them (section 3). *)
Definition valid_key (key : list string) : bool :=
  match key with
  | [] => false
  | _ => forallb (λ part, negb (has_sep part)) key
  end.

End Codec.

(** The identifier helpers of the package, one pair per resource kind,
    with the signatures their callers in sweep.go show. *)
Module ResourceID.

Section Helpers.

(** The delimiter of the identifiers. *)
Variable sep : ascii.

(** The extraction of account id and name from an access point ARN; it
    fails on a malformed ARN. *)
Variable parseARN : string → string * string + error.

(** Modelled from the spec: the decoding of an identifier of two
    components, shared by the parsers of the package, which are not
    among the sources; the identifier is split at the delimiter and
    must have exactly the two components of the key (section 3). *)
Definition parse_pair (id : string) : string * string + error :=
  match decode sep id with
  | [accountID; name] => inl (accountID, name)
  | _ => inr (ErrorString ("unexpected format for ID (" +:+ id +:+ ")"))
  end.

(** Modelled from the spec: [AccessPointCreateResourceID]
    (access_point.go) is not among the sources.  Sections 3 and 4.4: the
    natural key, account id and name, is extracted from the ARN of the
    listed item, which fails when a component cannot be parsed, and is
    encoded as a delimited string. *)
Definition AccessPointCreateResourceID (arn : string) : string + error :=
  match parseARN arn with
  | inl (accountID, name) => inl (encode sep [accountID; name])
  | inr err => inr err
  end.

(** Modelled from the spec: [AccessPointParseResourceID] is not among
    the sources; it reads account id and name back (section 3). *)
Definition AccessPointParseResourceID (id : string) : string * string + error :=
  parse_pair id.

(** Modelled from the spec: [MultiRegionAccessPointCreateResourceID]
    (multi_region_access_point.go) is not among the sources; the key,
    account id and name, as a delimited string (sections 2 and 3). *)
Definition MultiRegionAccessPointCreateResourceID (accountID accessPointName : string)
  : string :=
  encode sep [accountID; accessPointName].

(** Modelled from the spec: [MultiRegionAccessPointParseResourceID] is
    not among the sources; it reads account id and name back (section 3). *)
Definition MultiRegionAccessPointParseResourceID (id : string)
  : string * string + error :=
  parse_pair id.

(** Modelled from the spec: [ObjectLambdaAccessPointCreateResourceID]
    (object_lambda_access_point.go) is not among the sources; the key,
    account id and name, as a delimited string (sections 2 and 3). *)
Definition ObjectLambdaAccessPointCreateResourceID (accountID accessPointName : string)
  : string :=
  encode sep [accountID; accessPointName].

(** Modelled from the spec: [ObjectLambdaAccessPointParseResourceID] is
    not among the sources; it reads account id and name back (section 3). *)
Definition ObjectLambdaAccessPointParseResourceID (id : string)
  : string * string + error :=
  parse_pair id.

(** Modelled from the spec: [StorageLensConfigurationCreateResourceID]
    (storage_lens_configuration.go) is not among the sources; the key,
    account id and configuration id, as a delimited string (sections 2
    and 3). *)
Definition StorageLensConfigurationCreateResourceID (accountID configID : string)
  : string :=
  encode sep [accountID; configID].

(** Modelled from the spec: [StorageLensConfigurationParseResourceID] is
    not among the sources; it reads account id and configuration id
    back (section 3). *)
Definition StorageLensConfigurationParseResourceID (id : string)
  : string * string + error :=
  parse_pair id.

(** The collaborators of a run whose identifier helpers are the ones
    above. *)
Definition env (shared : string → AWSClient + error) (skip : error → bool) : Env :=
  Build_Env shared skip
    AccessPointCreateResourceID
    MultiRegionAccessPointCreateResourceID
    ObjectLambdaAccessPointCreateResourceID
    StorageLensConfigurationCreateResourceID.

End Helpers.

End ResourceID.

(** ** Reading a run *)

(** The items of the pages fetched before the paging stops. *)
Fixpoint fetched {A} (pages : Paginator A) : list A :=
  match pages with
  | NoMorePages => []
  | NextPageOK page rest => page ++ fetched rest
  | NextPageErr _ => []
  end.

(** The error that stops the paging, if any. *)
Fixpoint page_error {A} (pages : Paginator A) : option error :=
  match pages with
  | NoMorePages => None
  | NextPageOK _ rest => page_error rest
  | NextPageErr err => Some err
  end.

(** The number of [NextPage] calls of a full paging loop. *)
Fixpoint list_calls {A} (pages : Paginator A) : nat :=
  match pages with
  | NoMorePages => 0
  | NextPageOK _ rest => S (list_calls rest)
  | NextPageErr _ => 1
  end.

(** The errors of the deletions that fail in a batch, in order. *)
Definition failed_deletions (sweepables : list Sweepable) : list error :=
  omap Sweepable_Delete sweepables.

(** The positions of a batch whose deletion fails. *)
Definition failing_positions (sweepables : list Sweepable) : list nat :=
  filter (λ i, is_Some (sweepables !! i ≫= Sweepable_Delete)) (seq 0 (length sweepables)).

(** The aggregate a list of failures amounts to. *)
Definition aggregate (es : list error) : option error :=
  match es with
  | [] => None
  | _ => Some (MultiError es)
  end.

Section Reading.

Variable env : Env.

(** The outcome of building the identifier of one listed access point. *)
Definition build_AccessPoint (client : AWSClient) (v : AccessPoint) : Sweepable + error :=
  match AccessPointCreateResourceID env (ToString (AccessPointArn v)) with
  | inl id => inl (NewSweepResource resourceAccessPoint id client)
  | inr err => inr err
  end.

(** The Sweepables of the items whose identifier can be built, and the
    errors of the others, each in listing order. *)
Definition built_AccessPoints (client : AWSClient) (items : list AccessPoint)
  : list Sweepable :=
  omap (λ v, match build_AccessPoint client v with inl r => Some r | inr _ => None end)
       items.

Definition build_errors (client : AWSClient) (items : list AccessPoint) : list error :=
  omap (λ v, match build_AccessPoint client v with inl _ => None | inr e => Some e end)
       items.

Definition build_MultiRegionAccessPoint (client : AWSClient)
    (v : MultiRegionAccessPointReport) : Sweepable :=
  NewSweepResource resourceMultiRegionAccessPoint
    (MultiRegionAccessPointCreateResourceID env (AccountID client) (ToString (mrap_Name v)))
    client.

Definition build_ObjectLambdaAccessPoint (client : AWSClient)
    (v : ObjectLambdaAccessPoint) : Sweepable :=
  NewSweepResource resourceObjectLambdaAccessPoint
    (ObjectLambdaAccessPointCreateResourceID env (AccountID client) (ToString (olap_Name v)))
    client.

Definition build_StorageLensConfiguration (client : AWSClient)
    (v : ListStorageLensConfigurationEntry) : Sweepable :=
  NewSweepResource resourceStorageLensConfiguration
    (StorageLensConfigurationCreateResourceID env (AccountID client) (ToString (Id v)))
    client.

Definition is_default_dashboard (v : ListStorageLensConfigurationEntry) : bool :=
  String.eqb (ToString (Id v)) "default-account-dashboard".

(** The discovery function registered for a resource kind by [init]. *)
Definition sweeper (r : Resource) : string → Sweep (option error) :=
  match r with
  | resourceAccessPoint => sweepAccessPoints env
  | resourceMultiRegionAccessPoint => sweepMultiRegionAccessPoints env
  | resourceObjectLambdaAccessPoint => sweepObjectLambdaAccessPoints env
  | resourceStorageLensConfiguration => sweepStorageLensConfigurations env
  end.

(** The name of a resource kind in the texts of its sweeper. *)
Definition label (r : Resource) : string :=
  match r with
  | resourceAccessPoint => "S3 Access Point"
  | resourceMultiRegionAccessPoint => "S3 Multi-Region Access Point"
  | resourceObjectLambdaAccessPoint => "S3 Object Lambda Access Point"
  | resourceStorageLensConfiguration => "S3 Storage Lens Configuration"
  end.

(** The region guard at the head of the sweeper of a kind. *)
Definition eligible (r : Resource) (region : string) : bool :=
  match r with
  | resourceMultiRegionAccessPoint => String.eqb region USWest2RegionID
  | resourceStorageLensConfiguration =>
      negb (String.eqb region USGovEast1RegionID || String.eqb region USGovWest1RegionID)
  | _ => true
  end.

(** The listing of a kind as its sweeper starts it, reduced to what the
    paging loop observes: the error that stops it and the number of
    [NextPage] calls. *)
Definition listing_error (r : Resource) (client : AWSClient) : option error :=
  let conn := S3ControlClient client in
  let accountID := AccountID client in
  match r with
  | resourceAccessPoint => page_error (ListAccessPoints conn accountID)
  | resourceMultiRegionAccessPoint => page_error (ListMultiRegionAccessPoints conn accountID)
  | resourceObjectLambdaAccessPoint =>
      page_error (ListAccessPointsForObjectLambda conn accountID)
  | resourceStorageLensConfiguration =>
      page_error (ListStorageLensConfigurations conn accountID)
  end.

Definition listing_calls (r : Resource) (client : AWSClient) : nat :=
  let conn := S3ControlClient client in
  let accountID := AccountID client in
  match r with
  | resourceAccessPoint => list_calls (ListAccessPoints conn accountID)
  | resourceMultiRegionAccessPoint => list_calls (ListMultiRegionAccessPoints conn accountID)
  | resourceObjectLambdaAccessPoint =>
      list_calls (ListAccessPointsForObjectLambda conn accountID)
  | resourceStorageLensConfiguration =>
      list_calls (ListStorageLensConfigurations conn accountID)
  end.

(** The number of items on the fetched pages of a kind. *)
Definition fetched_count (r : Resource) (client : AWSClient) : nat :=
  let conn := S3ControlClient client in
  let accountID := AccountID client in
  match r with
  | resourceAccessPoint => length (fetched (ListAccessPoints conn accountID))
  | resourceMultiRegionAccessPoint =>
      length (fetched (ListMultiRegionAccessPoints conn accountID))
  | resourceObjectLambdaAccessPoint =>
      length (fetched (ListAccessPointsForObjectLambda conn accountID))
  | resourceStorageLensConfiguration =>
      length (fetched (ListStorageLensConfigurations conn accountID))
  end.

(** The Sweepables built from the fetched pages of a kind, and the
    identifier-build errors met on the way. *)
Definition discovered (r : Resource) (client : AWSClient) : list Sweepable :=
  let conn := S3ControlClient client in
  let accountID := AccountID client in
  match r with
  | resourceAccessPoint =>
      built_AccessPoints client (fetched (ListAccessPoints conn accountID))
  | resourceMultiRegionAccessPoint =>
      map (build_MultiRegionAccessPoint client)
          (fetched (ListMultiRegionAccessPoints conn accountID))
  | resourceObjectLambdaAccessPoint =>
      map (build_ObjectLambdaAccessPoint client)
          (fetched (ListAccessPointsForObjectLambda conn accountID))
  | resourceStorageLensConfiguration =>
      map (build_StorageLensConfiguration client)
          (filter (λ v, is_default_dashboard v = false)
                  (fetched (ListStorageLensConfigurations conn accountID)))
  end.

Definition discovery_errors (r : Resource) (client : AWSClient) : list error :=
  match r with
  | resourceAccessPoint =>
      build_errors client (fetched (ListAccessPoints (S3ControlClient client)
                                                    (AccountID client)))
  | _ => []
  end.

(** The events of a paging loop that makes [n] listing calls. *)
Definition paging (r : Resource) (client : AWSClient) (n : nat) : list event :=
  replicate n (ListCall r (AccountID client)).

Definition skip_text (r : Resource) (region : string) (err : error) : string :=
  "[WARN] Skipping " +:+ label r +:+ " sweep for " +:+ region +:+ ": " +:+ Error err.

Definition listing_text (r : Resource) (region : string) : string :=
  "error listing " +:+ label r +:+ "s (" +:+ region +:+ "): ".

Definition sweeping_text (r : Resource) (region : string) : string :=
  "error sweeping " +:+ label r +:+ "s (" +:+ region +:+ "): ".

Definition ineligible_text (r : Resource) (region : string) : string :=
  "[WARN] Skipping " +:+ label r +:+ " sweep for region: " +:+ region.

(** The error a sweeper makes of the orchestrator's error, and the
    value it returns once the errors of a run are known. *)
Definition sweeping_error (r : Resource) (region : string) (orch : option error)
  : list error :=
  match orch with
  | Some err => [Errorf_w (sweeping_text r region) err]
  | None => []
  end.

Definition returned (r : Resource) (es : list error) : option error :=
  match r with
  | resourceAccessPoint => aggregate es
  | _ => head es
  end.

(** The exit of the paging loop of a kind whose items always build. *)
Definition simple_exit (r : Resource) (region : string) {A} (pages : Paginator A)
    (sweepResources : list Sweepable) : loop_exit (list Sweepable) :=
  match page_error pages with
  | None => Finished sweepResources
  | Some e =>
      if skipClass env e then Returned None
      else Returned (Some (Errorf_w (listing_text r region) e))
  end.

Definition paging_trace (r : Resource) (region : string) (client : AWSClient) {A}
    (pages : Paginator A) : list event :=
  paging r client (list_calls pages)
  ++ match page_error pages with
     | Some e => if skipClass env e then [Log (skip_text r region e)] else []
     | None => []
     end.

End Reading.

(** ** Reading a run of the harness *)

(** The entry [init] registers for access points. *)
Definition access_point_sweeper (env : Env) : Sweeper :=
  {| Name := "aws_s3_access_point";
     F := sweepAccessPoints env;
     Dependencies := ["aws_s3control_object_lambda_access_point"] |}.

Definition ap_name : string := "aws_s3_access_point".
Definition olap_name : string := "aws_s3control_object_lambda_access_point".

(** The object lambda sweeper has returned somewhere in [t]. *)
Definition olap_done (t : list harness_event) : bool :=
  existsb (λ e, match e with End n _ => String.eqb n olap_name | _ => false end) t.

(** No access point sweeper starts in [t] before the object lambda
    sweeper has returned, [done] telling whether it had before [t]. *)
Fixpoint ordered (done : bool) (t : list harness_event) : bool :=
  match t with
  | [] => true
  | Begin n :: t' => (negb (String.eqb n ap_name) || done) && ordered done t'
  | Inside _ _ :: t' => ordered done t'
  | End n _ :: t' => ordered (done || String.eqb n olap_name) t'
  end.

(** The events of one sweeper run by the harness. *)
Definition sweeper_events (region : string) (s : Sweeper) (name : string)
  : list harness_event :=
  [Begin name] ++ map (Inside name) (snd (F s region)) ++ [End name (fst (F s region))].

(** What the harness maintains between two sweepers. *)
Definition harness_inv (ran : list string) (t : list harness_event) : Prop :=
  ordered false t = true
  ∧ (olap_name ∈ ran → olap_done t = true)
  ∧ (ap_name ∈ ran → Begin ap_name ∈ t).

(** ** The shapes of a run *)

(** The five ways a run of a sweeper can go. *)
Inductive run_shape (env : Env) (r : Resource) (region : string) : Prop :=
| run_ineligible :
    eligible r region = false →
    sweeper env r region = (None, [Log (ineligible_text r region)]) →
    run_shape env r region
| run_no_client err :
    sharedClient env region = inr err →
    sweeper env r region
    = (Some (Errorf_s "error getting client: " err), [GetClient region]) →
    run_shape env r region
| run_fatal client e :
    sharedClient env region = inl client →
    listing_error r client = Some e →
    skipClass env e = false →
    sweeper env r region
    = (Some (Errorf_w (listing_text r region) e),
       GetClient region :: paging r client (listing_calls r client)) →
    run_shape env r region
| run_skip client e :
    sharedClient env region = inl client →
    listing_error r client = Some e →
    skipClass env e = true →
    sweeper env r region
    = (aggregate (discovery_errors env r client),
       GetClient region :: paging r client (listing_calls r client)
         ++ [Log (skip_text r region e)]) →
    run_shape env r region
| run_finished client :
    sharedClient env region = inl client →
    listing_error r client = None →
    sweeper env r region
    = (returned r (discovery_errors env r client
                   ++ sweeping_error r region
                        (aggregate (failed_deletions (discovered env r client)))),
       GetClient region :: paging r client (listing_calls r client)
         ++ Orchestrate (discovered env r client)
         :: map Delete (discovered env r client)) →
    run_shape env r region.

(** ** Reading the log of a run *)

(** The lines a run logs, the regions it acquires a client for, and the
    events that are deletions. *)
Definition logs (t : list event) : list string :=
  omap (λ e, match e with Log msg => Some msg | _ => None end) t.

Definition acquisitions (t : list event) : list string :=
  omap (λ e, match e with GetClient region => Some region | _ => None end) t.

Definition is_Delete (e : event) : bool :=
  match e with Delete _ => true | _ => false end.

(** ** Sample runs *)

(** A collaborator set for concrete runs: one account, listings given as
    scripts, identifiers joined with a colon, an access point ARN parsed
    by [ex_parseARN], a deletion that fails for the identifiers listed in
    [undeletable], and a DNS lookup failure as the only skip-worthy
    error. *)
Definition ex_account : string := "123456789012".

Definition ex_colon : ascii := Ascii.ascii_of_nat 58.

(** The ARNs of the access points of the sample account in us-east-1
    give account id and name; a string that does not start with [arn:]
    is malformed. *)
Definition ex_arn_prefix : string := "arn:aws:s3:us-east-1:123456789012:accesspoint/".

Definition ex_parseARN (arn : string) : string * string + error :=
  if String.prefix ex_arn_prefix arn then
    inl (ex_account,
         String.substring (String.length ex_arn_prefix)
           (String.length arn - String.length ex_arn_prefix) arn)
  else if String.prefix "arn:" arn then
    inr (ErrorString ("parsing S3 Access Point ARN (" +:+ arn
                        +:+ "): unexpected resource"))
  else
    inr (ErrorString ("parsing S3 Access Point ARN (" +:+ arn
                        +:+ "): arn: invalid prefix")).

Definition ex_conn (aps : Paginator AccessPoint)
    (lens : Paginator ListStorageLensConfigurationEntry) : S3Control :=
  {| ListAccessPoints := λ _, aps;
     ListMultiRegionAccessPoints :=
       λ _, NextPageOK [ {| mrap_Name := Some "mrap-a" |} ]
              (NextPageOK [ {| mrap_Name := Some "mrap-b" |} ] NoMorePages);
     ListAccessPointsForObjectLambda :=
       λ _, NextPageOK [ {| olap_Name := Some "olap-a" |} ] NoMorePages;
     ListStorageLensConfigurations := λ _, lens |}.

Definition ex_client (aps : Paginator AccessPoint)
    (lens : Paginator ListStorageLensConfigurationEntry)
    (undeletable : list string) : AWSClient :=
  {| AccountID := ex_account;
     S3ControlClient := ex_conn aps lens;
     DeleteResource := λ _ id,
       if bool_decide (id ∈ undeletable)
       then Some (ErrorString ("deleting " +:+ id +:+ ": AccessDenied"))
       else None |}.

Definition ex_no_such_host : error := ErrorString "lookup s3-control: no such host".
Definition ex_throttled : error := ErrorString "ThrottlingException: Rate exceeded".

Definition ex_env (aps : Paginator AccessPoint)
    (lens : Paginator ListStorageLensConfigurationEntry)
    (undeletable : list string) : Env :=
  {| sharedClient := λ region,
       if String.eqb region "cn-north-1"
       then inr (ErrorString "no valid credential sources found")
       else inl (ex_client aps lens undeletable);
     skipClass := λ err,
       match err with
       | ErrorString s => String.eqb s "lookup s3-control: no such host"
       | _ => false
       end;
     AccessPointCreateResourceID := λ arn,
       match ex_parseARN arn with
       | inl (accountID, name) => inl (accountID +:+ ":" +:+ name)
       | inr err => inr err
       end;
     MultiRegionAccessPointCreateResourceID := λ accountID name,
       accountID +:+ ":" +:+ name;
     ObjectLambdaAccessPointCreateResourceID := λ accountID name,
       accountID +:+ ":" +:+ name;
     StorageLensConfigurationCreateResourceID := λ accountID configID,
       accountID +:+ ":" +:+ configID |}.

Definition ex_ap (arn : string) : AccessPoint := {| AccessPointArn := Some arn |}.

(** Two pages: three items, one of them with a malformed ARN, then two. *)
Definition ex_two_pages : Paginator AccessPoint :=
  NextPageOK [ex_ap "arn:aws:s3:us-east-1:123456789012:accesspoint/a";
              ex_ap "not-an-arn";
              ex_ap "arn:aws:s3:us-east-1:123456789012:accesspoint/b"]
    (NextPageOK [ex_ap "arn:aws:s3:us-east-1:123456789012:accesspoint/c";
                 ex_ap "arn:aws:s3:us-east-1:123456789012:accesspoint/d"]
       NoMorePages).

(** One page with one access point, then a throttled second fetch. *)
Definition ex_page_then_throttled : Paginator AccessPoint :=
  NextPageOK [ex_ap "arn:aws:s3:us-east-1:123456789012:accesspoint/a"]
    (NextPageErr ex_throttled).

(** One page with a malformed ARN, then an unreachable endpoint. *)
Definition ex_bad_item_then_no_host : Paginator AccessPoint :=
  NextPageOK [ex_ap "not-an-arn"] (NextPageErr ex_no_such_host).

(** The default dashboard on the second page, next to a configuration
    created by a test. *)
Definition ex_lens : Paginator ListStorageLensConfigurationEntry :=
  NextPageOK [ {| Id := Some "tf-acc-test-1" |} ]
    (NextPageOK [ {| Id := Some "default-account-dashboard" |};
                  {| Id := Some "tf-acc-test-2" |} ]
       NoMorePages).

(** * Properties *)

(** ** Computations with a log *)

Lemma result_bind {A B} (m : Sweep A) (f : A → Sweep B) :
  result (m ≫= f) = result (f (result m)).
Proof.
  destruct m as [a t]. unfold mbind, Sweep_bind, result. simpl.
  destruct (f a); reflexivity.
Qed.

Lemma trace_bind {A B} (m : Sweep A) (f : A → Sweep B) :
  trace (m ≫= f) = trace m ++ trace (f (result m)).
Proof.
  destruct m as [a t]. unfold mbind, Sweep_bind, result, trace. simpl.
  destruct (f a); reflexivity.
Qed.

Lemma Sweep_eq {A} (m : Sweep A) : m = (result m, trace m).
Proof. destruct m; reflexivity. Qed.

Lemma deletions_app t1 t2 : deletions (t1 ++ t2) = deletions t1 ++ deletions t2.
Proof. apply omap_app. Qed.

Lemma orchestrated_app t1 t2 : orchestrated (t1 ++ t2) = orchestrated t1 ++ orchestrated t2.
Proof. apply omap_app. Qed.

Lemma backend_calls_app t1 t2 : backend_calls (t1 ++ t2) = backend_calls t1 ++ backend_calls t2.
Proof. apply filter_app. Qed.

(** ** Aggregation *)

Lemma Errors_of_Append errs err : Errors_of (Append errs err) = Errors_of errs ++ [err].
Proof. destruct errs; reflexivity. Qed.

Lemma Errors_of_foldl_Append es errs :
  Errors_of (foldl Append errs es) = Errors_of errs ++ es.
Proof.
  revert errs. induction es as [|e es IH]; intros errs; simpl.
  - by rewrite app_nil_r.
  - by rewrite IH, Errors_of_Append, <- app_assoc.
Qed.

Lemma ErrorOrNil_aggregate errs : ErrorOrNil errs = aggregate (Errors_of errs).
Proof. destruct errs as [[|e es]|]; reflexivity. Qed.

Lemma aggregate_None es : aggregate es = None ↔ es = [].
Proof. destruct es; simpl; split; congruence. Qed.

Lemma aggregate_Some es agg : aggregate es = Some agg → agg = MultiError es ∧ es ≠ [].
Proof. destruct es; simpl; intros H; by simplify_eq. Qed.

(** ** The orchestrator *)

Lemma SweepOrchestrator_each_spec sweepables errs :
  SweepOrchestrator_each sweepables errs
  = (foldl Append errs (failed_deletions sweepables), map Delete sweepables).
Proof.
  revert errs. induction sweepables as [|r rs IH]; intros errs; [reflexivity|].
  cbn [SweepOrchestrator_each]. rewrite (Sweep_eq (_ ≫= _)), result_bind, trace_bind.
  unfold failed_deletions. cbn [omap list_omap map].
  destruct (Sweepable_Delete r) as [e|]; rewrite IH; reflexivity.
Qed.

Lemma deletions_map_Delete rs : deletions (map Delete rs) = rs.
Proof. induction rs as [|r rs IH]; [reflexivity|]. unfold deletions in *. cbn. by rewrite IH. Qed.

Lemma orchestrated_map_Delete rs : orchestrated (map Delete rs) = [].
Proof. induction rs as [|r rs IH]; [reflexivity|]. unfold orchestrated in *. by cbn. Qed.

Lemma SweepOrchestrator_spec sweepables :
  SweepOrchestrator sweepables
  = (aggregate (failed_deletions sweepables),
     Orchestrate sweepables :: map Delete sweepables).
Proof.
  unfold SweepOrchestrator.
  rewrite (Sweep_eq (_ ≫= _)), result_bind, trace_bind. cbn [emit result trace fst snd].
  rewrite (Sweep_eq (_ ≫= _)), result_bind, trace_bind.
  rewrite SweepOrchestrator_each_spec. cbn [result trace fst snd mret Sweep_ret].
  rewrite ErrorOrNil_aggregate, Errors_of_foldl_Append, app_nil_r. reflexivity.
Qed.

Lemma omap_filter_is_Some_ext {B} (g g' : nat → option B) (l : list nat) :
  (∀ i, i ∈ l → g i = g' i) →
  omap g (filter (λ i, is_Some (g i)) l) = omap g' (filter (λ i, is_Some (g' i)) l).
Proof.
  induction l as [|i l IH]; intros Hext; [reflexivity|].
  rewrite !filter_cons. rewrite <- (Hext i) by set_solver.
  specialize (IH (λ j Hj, Hext j (list_elem_of_further _ _ _ Hj))).
  destruct (decide (is_Some (g i))); [|exact IH].
  cbn [omap list_omap]. rewrite <- (Hext i) by set_solver. by rewrite IH.
Qed.

(** The failures of a batch are the errors found at its failing positions. *)
Lemma failed_deletions_positions sweepables :
  failed_deletions sweepables
  = omap (λ i, sweepables !! i ≫= Sweepable_Delete) (failing_positions sweepables).
Proof.
  unfold failed_deletions, failing_positions.
  induction sweepables as [|r rs IH] using rev_ind; [reflexivity|].
  rewrite omap_app, length_app, Nat.add_1_r, seq_S, filter_app, omap_app. cbn [Nat.add].
  f_equal.
  - rewrite IH. symmetry.
    apply (omap_filter_is_Some_ext (λ i, (rs ++ [r]) !! i ≫= Sweepable_Delete)
             (λ i, rs !! i ≫= Sweepable_Delete)).
    intros i Hi. apply elem_of_seq in Hi. rewrite lookup_app_l by lia. reflexivity.
  - cbn [omap list_omap]. rewrite filter_cons, filter_nil.
    rewrite list_lookup_middle by reflexivity. cbn.
    destruct (Sweepable_Delete r) eqn:E.
    + rewrite decide_True by eauto. cbn. rewrite list_lookup_middle by reflexivity.
      cbn. by rewrite E.
    + rewrite decide_False; [reflexivity|]. by intros [? ?].
Qed.

Lemma failed_deletions_length sweepables :
  length (failed_deletions sweepables) = length (failing_positions sweepables).
Proof.
  rewrite failed_deletions_positions.
  unfold failing_positions.
  induction (seq 0 (length sweepables)) as [|i l IH]; [reflexivity|].
  rewrite filter_cons.
  destruct (decide (is_Some (sweepables !! i ≫= Sweepable_Delete))) as [[e He]|]; [|done].
  cbn [omap list_omap]. rewrite He. cbn. by rewrite IH.
Qed.

(** C2. The orchestrator attempts the deletion of every Sweepable of the
    batch, in order, whatever fails; the aggregate it returns is made of
    exactly the failures found at the failing positions, as many as there
    are such positions; it returns no error exactly when no position
    fails, in particular on the empty batch. *)
Theorem SweepOrchestrator_no_early_abort (sweepables : list Sweepable) :
  deletions (trace (SweepOrchestrator sweepables)) = sweepables
  ∧ result (SweepOrchestrator sweepables) = aggregate (failed_deletions sweepables)
  ∧ failed_deletions sweepables
    = omap (λ i, sweepables !! i ≫= Sweepable_Delete) (failing_positions sweepables)
  ∧ length (failed_deletions sweepables) = length (failing_positions sweepables)
  ∧ (result (SweepOrchestrator sweepables) = None ↔ failing_positions sweepables = [])
  ∧ result (SweepOrchestrator []) = None.
Proof.
  rewrite SweepOrchestrator_spec. cbn [result trace fst snd].
  split_and!.
  - unfold deletions. cbn. apply deletions_map_Delete.
  - reflexivity.
  - apply failed_deletions_positions.
  - apply failed_deletions_length.
  - rewrite aggregate_None. rewrite <- !length_zero_iff_nil.
    by rewrite failed_deletions_length.
  - reflexivity.
Qed.

(** ** The paging loops *)

Section Loops.

Variable env : Env.

Lemma sweepAccessPoints_range_spec client items rs errs :
  sweepAccessPoints_range env client items rs errs
  = (rs ++ built_AccessPoints env client items,
     foldl Append errs (build_errors env client items)).
Proof.
  revert rs errs. induction items as [|v items IH]; intros rs errs.
  - cbn. by rewrite app_nil_r.
  - cbn [sweepAccessPoints_range]. unfold built_AccessPoints, build_errors.
    cbn [omap list_omap]. unfold build_AccessPoint.
    destruct (AccessPointCreateResourceID env _) as [id|err]; rewrite IH;
      unfold built_AccessPoints, build_errors, build_AccessPoint; cbn;
      rewrite <- ?app_assoc; reflexivity.
Qed.

Lemma sweepAccessPoints_pages_spec region client pages rs errs :
  sweepAccessPoints_pages env region client pages rs errs
  = (match page_error pages with
     | None =>
         Finished (rs ++ built_AccessPoints env client (fetched pages),
                   foldl Append errs (build_errors env client (fetched pages)))
     | Some e =>
         if skipClass env e then
           Returned (ErrorOrNil
             (foldl Append errs (build_errors env client (fetched pages))))
         else Returned (Some (Errorf_w (listing_text resourceAccessPoint region) e))
     end,
     paging resourceAccessPoint client (list_calls pages)
     ++ match page_error pages with
        | Some e =>
            if skipClass env e then [Log (skip_text resourceAccessPoint region e)] else []
        | None => []
        end).
Proof.
  revert rs errs. induction pages as [|page rest IH|err]; intros rs errs.
  - cbn. by rewrite app_nil_r.
  - cbn [sweepAccessPoints_pages SkipSweepError].
    rewrite (Sweep_eq (_ ≫= _)), result_bind, trace_bind. cbn [emit result trace fst snd].
    rewrite sweepAccessPoints_range_spec, IH. cbn [result trace fst snd fetched page_error list_calls].
    unfold built_AccessPoints, build_errors.
    rewrite !omap_app, foldl_app, <- !app_assoc. reflexivity.
  - cbn [sweepAccessPoints_pages SkipSweepError].
    rewrite (Sweep_eq (_ ≫= _)), result_bind, trace_bind. cbn [emit result trace fst snd].
    cbn [fetched page_error list_calls]. destruct (skipClass env err); reflexivity.
Qed.

Lemma sweepMultiRegionAccessPoints_range_spec client items rs :
  sweepMultiRegionAccessPoints_range env client (AccountID client) items rs
  = rs ++ map (build_MultiRegionAccessPoint env client) items.
Proof.
  revert rs. induction items as [|v items IH]; intros rs; cbn.
  - by rewrite app_nil_r.
  - by rewrite IH, <- app_assoc.
Qed.

Lemma sweepObjectLambdaAccessPoints_range_spec client items rs :
  sweepObjectLambdaAccessPoints_range env client (AccountID client) items rs
  = rs ++ map (build_ObjectLambdaAccessPoint env client) items.
Proof.
  revert rs. induction items as [|v items IH]; intros rs; cbn.
  - by rewrite app_nil_r.
  - by rewrite IH, <- app_assoc.
Qed.

Lemma sweepStorageLensConfigurations_range_spec client items rs :
  sweepStorageLensConfigurations_range env client (AccountID client) items rs
  = rs ++ map (build_StorageLensConfiguration env client)
            (filter (λ v, is_default_dashboard v = false) items).
Proof.
  revert rs. induction items as [|v items IH]; intros rs.
  - cbn. by rewrite app_nil_r.
  - cbn [sweepStorageLensConfigurations_range]. rewrite filter_cons.
    fold (is_default_dashboard v).
    destruct (is_default_dashboard v) eqn:E; rewrite IH.
    + by rewrite decide_False.
    + rewrite decide_True by reflexivity. cbn. by rewrite <- app_assoc.
Qed.

Lemma sweepMultiRegionAccessPoints_pages_spec region client pages rs :
  sweepMultiRegionAccessPoints_pages env region client (AccountID client) pages rs
  = (simple_exit env resourceMultiRegionAccessPoint region pages
       (rs ++ map (build_MultiRegionAccessPoint env client) (fetched pages)),
     paging_trace env resourceMultiRegionAccessPoint region client pages).
Proof.
  unfold simple_exit, paging_trace.
  revert rs. induction pages as [|page rest IH|err]; intros rs.
  - cbn. by rewrite app_nil_r.
  - cbn [sweepMultiRegionAccessPoints_pages SkipSweepError].
    rewrite (Sweep_eq (_ ≫= _)), result_bind, trace_bind. cbn [emit result trace fst snd].
    rewrite sweepMultiRegionAccessPoints_range_spec, IH.
    cbn [result trace fst snd fetched page_error list_calls].
    rewrite map_app, <- !app_assoc. reflexivity.
  - cbn [sweepMultiRegionAccessPoints_pages SkipSweepError].
    rewrite (Sweep_eq (_ ≫= _)), result_bind, trace_bind. cbn [emit result trace fst snd].
    cbn [fetched page_error list_calls]. destruct (skipClass env err); reflexivity.
Qed.

Lemma sweepObjectLambdaAccessPoints_pages_spec region client pages rs :
  sweepObjectLambdaAccessPoints_pages env region client (AccountID client) pages rs
  = (simple_exit env resourceObjectLambdaAccessPoint region pages
       (rs ++ map (build_ObjectLambdaAccessPoint env client) (fetched pages)),
     paging_trace env resourceObjectLambdaAccessPoint region client pages).
Proof.
  unfold simple_exit, paging_trace.
  revert rs. induction pages as [|page rest IH|err]; intros rs.
  - cbn. by rewrite app_nil_r.
  - cbn [sweepObjectLambdaAccessPoints_pages SkipSweepError].
    rewrite (Sweep_eq (_ ≫= _)), result_bind, trace_bind. cbn [emit result trace fst snd].
    rewrite sweepObjectLambdaAccessPoints_range_spec, IH.
    cbn [result trace fst snd fetched page_error list_calls].
    rewrite map_app, <- !app_assoc. reflexivity.
  - cbn [sweepObjectLambdaAccessPoints_pages SkipSweepError].
    rewrite (Sweep_eq (_ ≫= _)), result_bind, trace_bind. cbn [emit result trace fst snd].
    cbn [fetched page_error list_calls]. destruct (skipClass env err); reflexivity.
Qed.

Lemma sweepStorageLensConfigurations_pages_spec region client pages rs :
  sweepStorageLensConfigurations_pages env region client (AccountID client) pages rs
  = (simple_exit env resourceStorageLensConfiguration region pages
       (rs ++ map (build_StorageLensConfiguration env client)
                (filter (λ v, is_default_dashboard v = false) (fetched pages))),
     paging_trace env resourceStorageLensConfiguration region client pages).
Proof.
  unfold simple_exit, paging_trace.
  revert rs. induction pages as [|page rest IH|err]; intros rs.
  - cbn. by rewrite app_nil_r.
  - cbn [sweepStorageLensConfigurations_pages SkipSweepError].
    rewrite (Sweep_eq (_ ≫= _)), result_bind, trace_bind. cbn [emit result trace fst snd].
    rewrite sweepStorageLensConfigurations_range_spec, IH.
    cbn [result trace fst snd fetched page_error list_calls].
    rewrite filter_app, map_app, <- !app_assoc. reflexivity.
  - cbn [sweepStorageLensConfigurations_pages SkipSweepError].
    rewrite (Sweep_eq (_ ≫= _)), result_bind, trace_bind. cbn [emit result trace fst snd].
    cbn [fetched page_error list_calls]. destruct (skipClass env err); reflexivity.
Qed.

End Loops.

(** ** The runs of a sweeper, case by case *)

Section Runs.

Variable env : Env.

Lemma SharedRegionalSweepClient_spec region :
  SharedRegionalSweepClient env region = (sharedClient env region, [GetClient region]).
Proof. reflexivity. Qed.

Ltac step :=
  rewrite (Sweep_eq (_ ≫= _)), result_bind, trace_bind; cbn [result trace fst snd emit].

Ltac enter r Hel :=
  destruct r; cbn [sweeper eligible] in *;
  unfold sweepAccessPoints, sweepMultiRegionAccessPoints,
    sweepObjectLambdaAccessPoints, sweepStorageLensConfigurations;
  rewrite ?Hel; cbn [negb].

Ltac page_specs :=
  rewrite ?sweepAccessPoints_pages_spec, ?sweepMultiRegionAccessPoints_pages_spec,
    ?sweepObjectLambdaAccessPoints_pages_spec, ?sweepStorageLensConfigurations_pages_spec;
  unfold simple_exit, paging_trace.

Lemma sweeper_ineligible r region :
  eligible r region = false →
  sweeper env r region = (None, [Log (ineligible_text r region)]).
Proof.
  intros Hel. enter r Hel; try discriminate.
  - reflexivity.
  - apply negb_false_iff in Hel. rewrite Hel. reflexivity.
Qed.

Lemma sweeper_no_client r region err :
  eligible r region = true →
  sharedClient env region = inr err →
  sweeper env r region
  = (Some (Errorf_s "error getting client: " err), [GetClient region]).
Proof.
  intros Hel Hc. enter r Hel; try (apply negb_true_iff in Hel; rewrite Hel);
    step; rewrite SharedRegionalSweepClient_spec; cbn [result trace fst snd];
    rewrite Hc; reflexivity.
Qed.

Lemma sweeper_fatal r region client e :
  eligible r region = true →
  sharedClient env region = inl client →
  listing_error r client = Some e →
  skipClass env e = false →
  sweeper env r region
  = (Some (Errorf_w (listing_text r region) e),
     GetClient region :: paging r client (listing_calls r client)).
Proof.
  intros Hel Hc He Hs. unfold listing_error, listing_calls in *.
  enter r Hel; try (apply negb_true_iff in Hel; rewrite Hel);
    step; rewrite SharedRegionalSweepClient_spec; cbn [result trace fst snd];
    rewrite Hc; step; page_specs; cbn [result trace fst snd];
    rewrite He, Hs; cbn; rewrite ?app_nil_r; reflexivity.
Qed.

Lemma sweeper_skip r region client e :
  eligible r region = true →
  sharedClient env region = inl client →
  listing_error r client = Some e →
  skipClass env e = true →
  sweeper env r region
  = (aggregate (discovery_errors env r client),
     GetClient region :: paging r client (listing_calls r client)
       ++ [Log (skip_text r region e)]).
Proof.
  intros Hel Hc He Hs. unfold listing_error, listing_calls, discovery_errors in *.
  enter r Hel; try (apply negb_true_iff in Hel; rewrite Hel);
    step; rewrite SharedRegionalSweepClient_spec; cbn [result trace fst snd];
    rewrite Hc; step; page_specs; cbn [result trace fst snd];
    rewrite He, Hs; cbn [mret Sweep_ret result trace fst snd app];
    rewrite ?ErrorOrNil_aggregate, ?Errors_of_foldl_Append, ?app_nil_r; reflexivity.
Qed.

Lemma sweeper_finished r region client :
  eligible r region = true →
  sharedClient env region = inl client →
  listing_error r client = None →
  sweeper env r region
  = (returned r (discovery_errors env r client
                 ++ sweeping_error r region
                      (aggregate (failed_deletions (discovered env r client)))),
     GetClient region :: paging r client (listing_calls r client)
       ++ Orchestrate (discovered env r client)
       :: map Delete (discovered env r client)).
Proof.
  intros Hel Hc He. unfold listing_error, listing_calls, discovery_errors, discovered in *.
  enter r Hel; try (apply negb_true_iff in Hel; rewrite Hel);
    step; rewrite SharedRegionalSweepClient_spec; cbn [result trace fst snd];
    rewrite Hc; step; page_specs; cbn [result trace fst snd];
    rewrite He; cbn [app]; step; rewrite SweepOrchestrator_spec;
    cbn [result trace fst snd app]; rewrite ?app_nil_r;
    unfold sweeping_error, returned;
    destruct (aggregate (failed_deletions _)) as [o|];
    cbn [mret Sweep_ret result trace fst snd app head];
    rewrite ?ErrorOrNil_aggregate, ?Errors_of_Append, ?Errors_of_foldl_Append,
      ?app_nil_r; reflexivity.
Qed.

End Runs.

(** ** Two runs, evaluated *)

(** Two pages, three items with one malformed ARN and then two items,
    every deletion succeeding: four deletions are attempted and the
    aggregate returned holds the one build error. *)
Example two_pages_run :
  map sr_Id (deletions (trace (sweepAccessPoints (ex_env ex_two_pages ex_lens [])
                                 "us-east-1")))
  = ["123456789012:a";
     "123456789012:b";
     "123456789012:c";
     "123456789012:d"]
  ∧ result (sweepAccessPoints (ex_env ex_two_pages ex_lens []) "us-east-1")
    = Some (MultiError
        [ErrorString "parsing S3 Access Point ARN (not-an-arn): arn: invalid prefix"]).
Proof. split; reflexivity. Qed.

(** One page, then a throttled fetch: the client is acquired, two
    listing calls are made, and the run ends there. *)
Example throttled_run :
  sweepAccessPoints (ex_env ex_page_then_throttled ex_lens []) "us-east-1"
  = (Some (WrapError
       "error listing S3 Access Points (us-east-1): ThrottlingException: Rate exceeded"
       ex_throttled),
     [GetClient "us-east-1";
      ListCall resourceAccessPoint "123456789012";
      ListCall resourceAccessPoint "123456789012"]).
Proof. reflexivity. Qed.

(** ** Listing errors *)

Lemma orchestrated_paging r client n : orchestrated (paging r client n) = [].
Proof. unfold paging. induction n as [|n IH]; [reflexivity|exact IH]. Qed.

Lemma deletions_paging r client n : deletions (paging r client n) = [].
Proof. unfold paging. induction n as [|n IH]; [reflexivity|exact IH]. Qed.

Lemma append_assoc (s1 s2 s3 : string) : (s1 +:+ s2) +:+ s3 = s1 +:+ s2 +:+ s3.
Proof.
  induction s1 as [|c s1 IH]; [reflexivity|].
  change (String c ((s1 +:+ s2) +:+ s3) = String c (s1 +:+ s2 +:+ s3)).
  by rewrite IH.
Qed.

Lemma contains_Errorf_w prefix e : contains (Errorf_w prefix e) e.
Proof. apply contains_wrapped, contains_here. Qed.

(** C1, as the code has it. When a page fetch fails with an error that
    is not skip-worthy, the discovery function returns at once the error
    that wraps it: the orchestrator is not invoked and no deletion is
    attempted, whatever was accumulated from the earlier pages. *)
Theorem fatal_listing_returns_without_sweeping
    (env : Env) (r : Resource) (region : string) (client : AWSClient) (e : error) :
  eligible r region = true →
  sharedClient env region = inl client →
  listing_error r client = Some e →
  skipClass env e = false →
  result (sweeper env r region) = Some (Errorf_w (listing_text r region) e)
  ∧ orchestrated (trace (sweeper env r region)) = []
  ∧ deletions (trace (sweeper env r region)) = [].
Proof.
  intros Hel Hc He Hs. rewrite (sweeper_fatal env r region client e Hel Hc He Hs).
  cbn [result trace fst snd]. split_and!.
  - reflexivity.
  - apply orchestrated_paging.
  - apply deletions_paging.
Qed.

Lemma fatal_listing_returns_without_sweeping_witness :
  result (sweeper (ex_env ex_page_then_throttled ex_lens []) resourceAccessPoint "us-east-1")
  = Some (Errorf_w (listing_text resourceAccessPoint "us-east-1") ex_throttled)
  ∧ orchestrated (trace (sweeper (ex_env ex_page_then_throttled ex_lens [])
                           resourceAccessPoint "us-east-1")) = []
  ∧ deletions (trace (sweeper (ex_env ex_page_then_throttled ex_lens [])
                        resourceAccessPoint "us-east-1")) = [].
Proof.
  apply (fatal_listing_returns_without_sweeping
           (ex_env ex_page_then_throttled ex_lens []) resourceAccessPoint "us-east-1"
           (ex_client ex_page_then_throttled ex_lens []) ex_throttled);
    reflexivity.
Defined.

(** C1, as stated, fails: with one access point listed on the first page
    and a throttled second fetch, one Sweepable has been accumulated but
    the orchestrator is never handed it. *)
Lemma fatal_listing_still_sweeps_refuted :
  ¬ (∀ (env : Env) (r : Resource) (region : string) (client : AWSClient) (e : error),
       eligible r region = true →
       sharedClient env region = inl client →
       listing_error r client = Some e →
       skipClass env e = false →
       orchestrated (trace (sweeper env r region)) = [discovered env r client]
       ∧ result (sweeper env r region) = Some (Errorf_w (listing_text r region) e)).
Proof.
  intros H.
  destruct (H (ex_env ex_page_then_throttled ex_lens []) resourceAccessPoint "us-east-1"
              (ex_client ex_page_then_throttled ex_lens []) ex_throttled
              eq_refl eq_refl eq_refl eq_refl) as [Horch _].
  vm_compute in Horch. discriminate Horch.
Qed.

(** C3, as the code has it. A skip-worthy page-fetch error makes the
    discovery function log the skip and return without sweeping; the
    value returned is made of the identifier-build errors accumulated so
    far and of nothing else, so it is success for the kinds other than
    access points, and for access points when no identifier failed to
    build.  Any other page-fetch error makes it return an error that
    wraps the original one, with a text that names the resource kind and
    the region. *)
Theorem listing_error_classification
    (env : Env) (r : Resource) (region : string) (client : AWSClient) (e : error) :
  eligible r region = true →
  sharedClient env region = inl client →
  listing_error r client = Some e →
  (skipClass env e = true →
     result (sweeper env r region) = aggregate (discovery_errors env r client)
     ∧ (r ≠ resourceAccessPoint → result (sweeper env r region) = None)
     ∧ (discovery_errors env r client = [] → result (sweeper env r region) = None)
     ∧ Log (skip_text r region e) ∈ trace (sweeper env r region)
     ∧ orchestrated (trace (sweeper env r region)) = [])
  ∧ (skipClass env e = false →
     result (sweeper env r region)
     = Some (WrapError ("error listing " +:+ label r +:+ "s (" +:+ region +:+ "): "
                          +:+ Error e) e)
     ∧ ∀ err, result (sweeper env r region) = Some err → contains err e).
Proof.
  intros Hel Hc He. split; intros Hs.
  - rewrite (sweeper_skip env r region client e Hel Hc He Hs).
    cbn [result trace fst snd]. split_and!.
    + reflexivity.
    + intros Hr. destruct r; [congruence|reflexivity..].
    + intros ->. reflexivity.
    + set_solver.
    + change (orchestrated ([GetClient region] ++ paging r client (listing_calls r client)
                             ++ [Log (skip_text r region e)]) = []).
      rewrite !orchestrated_app, orchestrated_paging. reflexivity.
  - rewrite (sweeper_fatal env r region client e Hel Hc He Hs).
    cbn [result trace fst snd]. split.
    + unfold Errorf_w, listing_text. by rewrite !append_assoc.
    + intros err [= <-]. apply contains_Errorf_w.
Qed.

Lemma listing_error_classification_witness :
  result (sweeper (ex_env ex_bad_item_then_no_host ex_lens []) resourceAccessPoint
            "us-east-1")
  = Some (MultiError
            [ErrorString "parsing S3 Access Point ARN (not-an-arn): arn: invalid prefix"]).
Proof.
  destruct (listing_error_classification
              (ex_env ex_bad_item_then_no_host ex_lens []) resourceAccessPoint "us-east-1"
              (ex_client ex_bad_item_then_no_host ex_lens []) ex_no_such_host
              eq_refl eq_refl eq_refl) as [Hskip _].
  destruct (Hskip eq_refl) as [Hres _].
  rewrite Hres. reflexivity.
Defined.

(** C3, as stated, fails: with a malformed ARN on the first page and a
    skip-worthy error on the second fetch, the access point sweeper
    returns the build error, not success. *)
Lemma skip_returns_success_refuted :
  ¬ (∀ (env : Env) (r : Resource) (region : string) (client : AWSClient) (e : error),
       eligible r region = true →
       sharedClient env region = inl client →
       listing_error r client = Some e →
       skipClass env e = true →
       result (sweeper env r region) = None).
Proof.
  intros H.
  specialize (H (ex_env ex_bad_item_then_no_host ex_lens []) resourceAccessPoint "us-east-1"
                (ex_client ex_bad_item_then_no_host ex_lens []) ex_no_such_host
                eq_refl eq_refl eq_refl eq_refl).
  vm_compute in H. discriminate H.
Qed.

(** ** Region gating *)

(** C4. In a region where the kind is not eligible (multi-region access
    points outside us-west-2, storage lens configurations in
    us-gov-east-1 and us-gov-west-1) the discovery function returns
    success after logging the skip and nothing else: no client is
    acquired, no listing or deletion call is made, no batch is handed to
    the orchestrator. *)
Theorem ineligible_region_short_circuits (env : Env) (r : Resource) (region : string) :
  (r = resourceMultiRegionAccessPoint ∧ region ≠ "us-west-2")
  ∨ (r = resourceStorageLensConfiguration
     ∧ (region = "us-gov-east-1" ∨ region = "us-gov-west-1")) →
  result (sweeper env r region) = None
  ∧ backend_calls (trace (sweeper env r region)) = []
  ∧ orchestrated (trace (sweeper env r region)) = []
  ∧ (∀ reg, GetClient reg ∉ trace (sweeper env r region))
  ∧ trace (sweeper env r region) = [Log (ineligible_text r region)].
Proof.
  intros H.
  assert (Hel : eligible r region = false).
  { destruct H as [[-> Hne]|[-> Hgov]]; cbn [eligible].
    - by apply String.eqb_neq.
    - apply negb_false_iff, orb_true_iff.
      destruct Hgov as [->| ->]; [left|right]; reflexivity. }
  rewrite (sweeper_ineligible env r region Hel). cbn [result trace fst snd].
  split_and!; try reflexivity.
  intros reg Hin. apply list_elem_of_singleton in Hin. discriminate Hin.
Qed.

Lemma ineligible_region_short_circuits_witness :
  result (sweeper (ex_env ex_two_pages ex_lens []) resourceStorageLensConfiguration
            "us-gov-west-1") = None
  ∧ backend_calls (trace (sweeper (ex_env ex_two_pages ex_lens [])
                            resourceMultiRegionAccessPoint "eu-west-1")) = [].
Proof.
  split.
  - apply (ineligible_region_short_circuits (ex_env ex_two_pages ex_lens [])
             resourceStorageLensConfiguration "us-gov-west-1").
    right. split; [reflexivity|]. right. reflexivity.
  - apply (ineligible_region_short_circuits (ex_env ex_two_pages ex_lens [])
             resourceMultiRegionAccessPoint "eu-west-1").
    left. split; [reflexivity|]. intros Heq. discriminate Heq.
Defined.

(** ** Building Sweepables *)

Lemma built_AccessPoints_app env client l1 l2 :
  built_AccessPoints env client (l1 ++ l2)
  = built_AccessPoints env client l1 ++ built_AccessPoints env client l2.
Proof. apply omap_app. Qed.

Lemma build_errors_app env client l1 l2 :
  build_errors env client (l1 ++ l2)
  = build_errors env client l1 ++ build_errors env client l2.
Proof. apply omap_app. Qed.

Lemma built_AccessPoints_bad env client v items err :
  AccessPointCreateResourceID env (ToString (AccessPointArn v)) = inr err →
  built_AccessPoints env client (v :: items) = built_AccessPoints env client items
  ∧ build_errors env client (v :: items) = err :: build_errors env client items.
Proof.
  intros Hbad.
  assert (Hv : build_AccessPoint env client v = inr err)
    by (unfold build_AccessPoint; by rewrite Hbad).
  unfold built_AccessPoints, build_errors. cbn [omap list_omap].
  rewrite Hv. split; reflexivity.
Qed.

Lemma built_AccessPoints_elem env client items w id :
  w ∈ items →
  AccessPointCreateResourceID env (ToString (AccessPointArn w)) = inl id →
  NewSweepResource resourceAccessPoint id client ∈ built_AccessPoints env client items.
Proof.
  intros Hin Hid. unfold built_AccessPoints. apply list_elem_of_omap.
  exists w. split; [exact Hin|]. unfold build_AccessPoint. by rewrite Hid.
Qed.

(** C5. In the access point sweeper, when the identifier of one listed
    item cannot be built, the error joins the running aggregate and the
    loop goes on: the items after it on the page still give their
    Sweepables, and the paging proceeds to the later pages with the
    Sweepables and errors accumulated so far. *)
Theorem build_error_does_not_stop_building
    (env : Env) (region : string) (client : AWSClient)
    (before : list AccessPoint) (v : AccessPoint) (after : list AccessPoint)
    (rest : Paginator AccessPoint)
    (sweepResources : list Sweepable) (sweeperErrs : multierror) (err : error) :
  AccessPointCreateResourceID env (ToString (AccessPointArn v)) = inr err →
  let page := before ++ v :: after in
  let sweepResources' :=
    sweepResources ++ built_AccessPoints env client (before ++ after) in
  let sweeperErrs' :=
    foldl Append sweeperErrs
      (build_errors env client before ++ err :: build_errors env client after) in
  sweepAccessPoints_range env client page sweepResources sweeperErrs
  = (sweepResources', sweeperErrs')
  ∧ err ∈ Errors_of sweeperErrs'
  ∧ (∀ w id, w ∈ after →
       AccessPointCreateResourceID env (ToString (AccessPointArn w)) = inl id →
       NewSweepResource resourceAccessPoint id client ∈ sweepResources')
  ∧ sweepAccessPoints_pages env region client (NextPageOK page rest)
      sweepResources sweeperErrs
    = (emit (ListCall resourceAccessPoint (AccountID client));;
       sweepAccessPoints_pages env region client rest sweepResources' sweeperErrs')
  ∧ (page_error rest = None →
     result (sweepAccessPoints_pages env region client (NextPageOK page rest)
               sweepResources sweeperErrs)
     = Finished
         (sweepResources' ++ built_AccessPoints env client (fetched rest),
          foldl Append sweeperErrs' (build_errors env client (fetched rest)))).
Proof.
  intros Hbad page rs' errs'.
  destruct (built_AccessPoints_bad env client v after err Hbad) as [Hb He].
  assert (Hrange : sweepAccessPoints_range env client page sweepResources sweeperErrs
                   = (rs', errs')).
  { rewrite sweepAccessPoints_range_spec. subst page rs' errs'.
    by rewrite !built_AccessPoints_app, build_errors_app, Hb, He. }
  split_and!.
  - exact Hrange.
  - subst errs'. rewrite Errors_of_foldl_Append. set_solver.
  - intros w id Hin Hid. subst rs'. rewrite built_AccessPoints_app.
    apply elem_of_app. right. apply elem_of_app. right.
    by apply built_AccessPoints_elem with w.
  - cbn [sweepAccessPoints_pages SkipSweepError]. by rewrite Hrange.
  - intros Hrest. cbn [sweepAccessPoints_pages SkipSweepError].
    rewrite result_bind, Hrange, sweepAccessPoints_pages_spec, Hrest. reflexivity.
Qed.

(** The scenario of two pages: three items with one malformed ARN, then
    two items; four Sweepables are built and one build error is kept. *)
Lemma build_error_does_not_stop_building_witness :
  result (sweepAccessPoints_pages (ex_env ex_two_pages ex_lens []) "us-east-1"
            (ex_client ex_two_pages ex_lens []) ex_two_pages [] None)
  = Finished
      (map (λ name, NewSweepResource resourceAccessPoint
                      ("123456789012:" +:+ name)
                      (ex_client ex_two_pages ex_lens []))
           ["a"; "b"; "c"; "d"],
       Some [ErrorString "parsing S3 Access Point ARN (not-an-arn): arn: invalid prefix"]).
Proof.
  pose proof (build_error_does_not_stop_building
                (ex_env ex_two_pages ex_lens []) "us-east-1"
                (ex_client ex_two_pages ex_lens [])
                [ex_ap "arn:aws:s3:us-east-1:123456789012:accesspoint/a"]
                (ex_ap "not-an-arn")
                [ex_ap "arn:aws:s3:us-east-1:123456789012:accesspoint/b"]
                (NextPageOK [ex_ap "arn:aws:s3:us-east-1:123456789012:accesspoint/c";
                             ex_ap "arn:aws:s3:us-east-1:123456789012:accesspoint/d"]
                   NoMorePages)
                [] None
                (ErrorString "parsing S3 Access Point ARN (not-an-arn): arn: invalid prefix")
                eq_refl) as (_ & _ & _ & _ & Hfin).
  exact (Hfin eq_refl).
Defined.

(** ** Merging the errors of a run *)

Lemma contains_failed_deletion (es : list error) (agg d : error) :
  aggregate es = Some agg → d ∈ es → contains agg d.
Proof.
  intros Hagg Hd. apply aggregate_Some in Hagg as [-> _].
  by apply contains_member with d, contains_here.
Qed.

Lemma returned_None r es : returned r es = None ↔ es = [].
Proof. destruct r, es; cbn; split; congruence. Qed.

Lemma sweeping_error_nil r region orch : sweeping_error r region orch = [] ↔ orch = None.
Proof. destruct orch; cbn; split; congruence. Qed.

(** C6. In a run that reaches the orchestration step, the discovery
    function returns no error exactly when no identifier-build error was
    accumulated and the orchestrator returned none; otherwise the value
    it returns holds every accumulated build error and the orchestrator's
    error, and through it every failed deletion.  For access points the
    value is the aggregate of the build errors followed by the wrapped
    error of the orchestrator. *)
Theorem orchestrated_run_result
    (env : Env) (r : Resource) (region : string) (client : AWSClient) :
  eligible r region = true →
  sharedClient env region = inl client →
  listing_error r client = None →
  let orch := result (SweepOrchestrator (discovered env r client)) in
  let res := result (sweeper env r region) in
  orchestrated (trace (sweeper env r region)) = [discovered env r client]
  ∧ (res = None ↔ discovery_errors env r client = [] ∧ orch = None)
  ∧ (∀ agg, res = Some agg →
       (∀ e, e ∈ discovery_errors env r client → contains agg e)
       ∧ (∀ o, orch = Some o → contains agg o)
       ∧ (∀ d, d ∈ failed_deletions (discovered env r client) → contains agg d))
  ∧ (r = resourceAccessPoint →
     res = aggregate (discovery_errors env r client ++ sweeping_error r region orch)).
Proof.
  intros Hel Hc He orch res. subst orch res.
  rewrite (sweeper_finished env r region client Hel Hc He), SweepOrchestrator_spec.
  cbn [result trace fst snd].
  set (ds := discovered env r client).
  set (orch := aggregate (failed_deletions ds)).
  assert (Hwrap : ∀ o, contains (Errorf_w (sweeping_text r region) o) o)
    by (intros; apply contains_Errorf_w).
  assert (Hdel : ∀ o d, orch = Some o → d ∈ failed_deletions ds →
                        contains (Errorf_w (sweeping_text r region) o) d).
  { intros o d Ho Hd. apply contains_wrapped.
    by apply contains_failed_deletion with (failed_deletions ds). }
  split_and!.
  - change (orchestrated ([GetClient region] ++ paging r client (listing_calls r client)
                           ++ [Orchestrate ds] ++ map Delete ds) = [ds]).
    rewrite !orchestrated_app, orchestrated_paging, orchestrated_map_Delete. reflexivity.
  - rewrite returned_None, app_nil, sweeping_error_nil. reflexivity.
  - intros agg Hagg.
    assert (Hmem : ∀ e, e ∈ discovery_errors env r client ++ sweeping_error r region orch →
                        ∃ e', contains agg e' ∧ e' = e).
    { intros e Hin. exists e. split; [|reflexivity].
      destruct r; cbn [returned] in Hagg.
      - by apply contains_failed_deletion with (1 := Hagg).
      - cbn [discovery_errors app] in *. destruct (sweeping_error _ _ _) as [|x xs] eqn:Ex;
          [done|]. cbn in Hagg. simplify_eq. unfold sweeping_error in Ex.
        destruct orch; simplify_eq. apply list_elem_of_singleton in Hin as ->.
        apply contains_here.
      - cbn [discovery_errors app] in *. destruct (sweeping_error _ _ _) as [|x xs] eqn:Ex;
          [done|]. cbn in Hagg. simplify_eq. unfold sweeping_error in Ex.
        destruct orch; simplify_eq. apply list_elem_of_singleton in Hin as ->.
        apply contains_here.
      - cbn [discovery_errors app] in *. destruct (sweeping_error _ _ _) as [|x xs] eqn:Ex;
          [done|]. cbn in Hagg. simplify_eq. unfold sweeping_error in Ex.
        destruct orch; simplify_eq. apply list_elem_of_singleton in Hin as ->.
        apply contains_here. }
    assert (Htrans : ∀ a b c, contains a b → contains b c → contains a c).
    { intros a b c Hab. induction Hab; intros Hbc; [done|..].
      - apply contains_wrapped; auto.
      - eapply contains_member; eauto. }
    split_and!.
    + intros e Hin. destruct (Hmem e) as (e' & Hc' & ->); [set_solver|done].
    + intros o Ho. destruct (Hmem (Errorf_w (sweeping_text r region) o)) as (e' & Hc' & ->).
      { unfold sweeping_error. rewrite Ho. set_solver. }
      eapply Htrans; [exact Hc'|apply Hwrap].
    + intros d Hd. destruct orch as [o|] eqn:Ho.
      * destruct (Hmem (Errorf_w (sweeping_text r region) o)) as (e' & Hc' & ->).
        { unfold sweeping_error. set_solver. }
        eapply Htrans; [exact Hc'|]. by apply Hdel.
      * subst orch. apply aggregate_None in Ho. rewrite Ho in Hd. set_solver.
  - intros ->. reflexivity.
Qed.

Lemma orchestrated_run_result_witness :
  result (sweeper (ex_env ex_two_pages ex_lens
                     ["123456789012:b"])
            resourceAccessPoint "us-east-1")
  = Some (MultiError
      [ErrorString "parsing S3 Access Point ARN (not-an-arn): arn: invalid prefix";
       Errorf_w "error sweeping S3 Access Points (us-east-1): "
         (MultiError [ErrorString
            "deleting 123456789012:b: AccessDenied"])]).
Proof.
  destruct (orchestrated_run_result
              (ex_env ex_two_pages ex_lens
                 ["123456789012:b"])
              resourceAccessPoint "us-east-1"
              (ex_client ex_two_pages ex_lens
                 ["123456789012:b"])
              eq_refl eq_refl eq_refl) as (_ & _ & _ & Hres).
  rewrite (Hres eq_refl). reflexivity.
Defined.

(** ** Every run of a sweeper *)

Lemma sweeper_run_shape env r region : run_shape env r region.
Proof.
  destruct (eligible r region) eqn:Hel.
  2: { by apply run_ineligible, sweeper_ineligible. }
  destruct (sharedClient env region) as [client|err] eqn:Hc.
  2: { by eapply run_no_client, sweeper_no_client. }
  destruct (listing_error r client) as [e|] eqn:He.
  2: { by eapply run_finished, sweeper_finished. }
  destruct (skipClass env e) eqn:Hs.
  - by eapply run_skip, sweeper_skip.
  - by eapply run_fatal, sweeper_fatal.
Qed.

Lemma orchestrated_GetClient region t :
  orchestrated (GetClient region :: t) = orchestrated t.
Proof. reflexivity. Qed.

Lemma orchestrated_Orchestrate rs t :
  orchestrated (Orchestrate rs :: t) = rs :: orchestrated t.
Proof. reflexivity. Qed.

Lemma deletions_GetClient region t : deletions (GetClient region :: t) = deletions t.
Proof. reflexivity. Qed.

Lemma deletions_Orchestrate rs t : deletions (Orchestrate rs :: t) = deletions t.
Proof. reflexivity. Qed.

(** What is handed to the orchestrator and what is deleted, in any run. *)
Lemma sweeper_orchestrated env r region batch :
  batch ∈ orchestrated (trace (sweeper env r region)) →
  ∃ client, sharedClient env region = inl client
            ∧ listing_error r client = None
            ∧ batch = discovered env r client.
Proof.
  destruct (sweeper_run_shape env r region)
    as [? ->|? ? ->|? ? ? ? ? ->|? ? ? ? ? ->|client ? ? ->];
    cbn [trace snd];
    rewrite ?orchestrated_GetClient, ?orchestrated_app, ?orchestrated_paging,
      ?orchestrated_Orchestrate, ?orchestrated_map_Delete;
    cbn; intros Hin; try (by apply elem_of_nil in Hin).
  apply list_elem_of_singleton in Hin. eauto.
Qed.

Lemma sweeper_deletions env r region d :
  d ∈ deletions (trace (sweeper env r region)) →
  ∃ client, sharedClient env region = inl client
            ∧ listing_error r client = None
            ∧ d ∈ discovered env r client.
Proof.
  destruct (sweeper_run_shape env r region)
    as [? ->|? ? ->|? ? ? ? ? ->|? ? ? ? ? ->|client ? ? ->];
    cbn [trace snd];
    rewrite ?deletions_GetClient, ?deletions_app, ?deletions_paging,
      ?deletions_Orchestrate, ?deletions_map_Delete;
    cbn; intros Hin; try (by apply elem_of_nil in Hin).
  eauto.
Qed.

(** ** The default dashboard *)

(** C9. The storage lens sweeper builds a Sweepable only from a listed
    configuration whose ID is not "default-account-dashboard": on every
    page the entries with that ID are passed over, and whatever a run
    hands to the orchestrator or deletes was built from another entry of
    a fetched page.  With identifiers that tell configurations apart, no
    scheduled deletion bears the identifier of the default dashboard. *)
Theorem default_dashboard_never_swept (env : Env) (region : string) (d : Sweepable) :
  d ∈ deletions (trace (sweepStorageLensConfigurations env region))
  ∨ (∃ batch, batch ∈ orchestrated (trace (sweepStorageLensConfigurations env region))
              ∧ d ∈ batch) →
  (∃ client v,
      sharedClient env region = inl client
      ∧ v ∈ fetched (ListStorageLensConfigurations (S3ControlClient client)
                       (AccountID client))
      ∧ ToString (Id v) ≠ "default-account-dashboard"
      ∧ d = build_StorageLensConfiguration env client v)
  ∧ ((∀ accountID configID,
        StorageLensConfigurationCreateResourceID env accountID configID
        = StorageLensConfigurationCreateResourceID env accountID "default-account-dashboard" →
        configID = "default-account-dashboard") →
     sr_Id d ≠ StorageLensConfigurationCreateResourceID env (AccountID (sr_meta d))
                 "default-account-dashboard")
  ∧ (∀ client page sweepResources,
       sweepStorageLensConfigurations_range env client (AccountID client) page sweepResources
       = sweepResources
         ++ map (build_StorageLensConfiguration env client)
              (filter (λ v, ToString (Id v) ≠ "default-account-dashboard") page)).
Proof.
  intros Hd.
  assert (Hfilter : ∀ page : list ListStorageLensConfigurationEntry,
            filter (λ v, is_default_dashboard v = false) page
            = filter (λ v, ToString (Id v) ≠ "default-account-dashboard") page).
  { intros page. apply list_filter_iff. intros v. unfold is_default_dashboard.
    by rewrite String.eqb_neq. }
  assert (Hsrc : ∃ client v,
            sharedClient env region = inl client
            ∧ v ∈ fetched (ListStorageLensConfigurations (S3ControlClient client)
                             (AccountID client))
            ∧ ToString (Id v) ≠ "default-account-dashboard"
            ∧ d = build_StorageLensConfiguration env client v).
  { assert (∃ client, sharedClient env region = inl client
                      ∧ d ∈ discovered env resourceStorageLensConfiguration client)
      as (client & Hc & Hin).
    { destruct Hd as [Hd|(batch & Hb & Hd)].
      - apply (sweeper_deletions env resourceStorageLensConfiguration) in Hd
          as (client & ? & ? & ?). eauto.
      - apply (sweeper_orchestrated env resourceStorageLensConfiguration) in Hb
          as (client & ? & ? & ->). eauto. }
    cbn [discovered] in Hin. rewrite Hfilter in Hin.
    apply list_elem_of_fmap in Hin as (v & -> & Hv).
    apply list_elem_of_filter in Hv as [Hne Hv]. eauto 10. }
  split_and!.
  - exact Hsrc.
  - intros Hinj. destruct Hsrc as (client & v & _ & _ & Hne & ->). cbn.
    intros Heq. apply Hne. by apply Hinj with (AccountID client).
  - intros client page rs. by rewrite sweepStorageLensConfigurations_range_spec, Hfilter.
Qed.

Lemma default_dashboard_never_swept_witness :
  sr_Id (build_StorageLensConfiguration (ex_env ex_two_pages ex_lens [])
           (ex_client ex_two_pages ex_lens []) {| Id := Some "tf-acc-test-2" |})
  ≠ "123456789012:default-account-dashboard".
Proof.
  destruct (default_dashboard_never_swept (ex_env ex_two_pages ex_lens []) "us-east-1"
              (build_StorageLensConfiguration (ex_env ex_two_pages ex_lens [])
                 (ex_client ex_two_pages ex_lens []) {| Id := Some "tf-acc-test-2" |}))
    as (_ & Hid & _).
  - left. vm_compute. apply list_elem_of_further, list_elem_of_here.
  - apply Hid. intros accountID configID Heq.
    change (accountID +:+ ":" +:+ configID
            = accountID +:+ ":" +:+ "default-account-dashboard") in Heq.
    by do 2 apply (inj (String.app _)) in Heq.
Defined.

(** ** Kinds whose identifiers always build *)

Lemma returned_head r es :
  r ≠ resourceAccessPoint → returned r es = head es.
Proof. by destruct r. Qed.

(** C10. For multi-region access points and object lambda access
    points, every item of every successfully fetched page adds exactly
    one Sweepable and nothing else is recorded: the range loop appends
    one Sweepable per item of the page, the paging loop carries them
    from page to page and ends with one Sweepable per fetched item, and
    a run whose listing ends without error hands exactly these to the
    orchestrator, one per item, and returns an error only if the
    orchestrator does.  An error returned by the sweeper is the client
    acquisition error, the wrapped fatal listing error, or the wrapped
    error of the orchestrator. *)
Theorem every_item_builds (env : Env) (r : Resource) (region : string) :
  r = resourceMultiRegionAccessPoint ∨ r = resourceObjectLambdaAccessPoint →
  (∀ client page sweepResources,
     sweepMultiRegionAccessPoints_range env client (AccountID client) page sweepResources
     = sweepResources ++ map (build_MultiRegionAccessPoint env client) page)
  ∧ (∀ client page sweepResources,
     sweepObjectLambdaAccessPoints_range env client (AccountID client) page sweepResources
     = sweepResources ++ map (build_ObjectLambdaAccessPoint env client) page)
  ∧ (∀ reg client pages sweepResources,
       result (sweepMultiRegionAccessPoints_pages env reg client (AccountID client)
                 pages sweepResources)
       = match page_error pages with
         | None =>
             Finished (sweepResources
                       ++ map (build_MultiRegionAccessPoint env client) (fetched pages))
         | Some e =>
             if skipClass env e then Returned None
             else Returned (Some (Errorf_w
                    ("error listing S3 Multi-Region Access Points (" +:+ reg +:+ "): ") e))
         end)
  ∧ (∀ reg client pages sweepResources,
       result (sweepObjectLambdaAccessPoints_pages env reg client (AccountID client)
                 pages sweepResources)
       = match page_error pages with
         | None =>
             Finished (sweepResources
                       ++ map (build_ObjectLambdaAccessPoint env client) (fetched pages))
         | Some e =>
             if skipClass env e then Returned None
             else Returned (Some (Errorf_w
                    ("error listing S3 Object Lambda Access Points (" +:+ reg +:+ "): ") e))
         end)
  ∧ (∀ client,
       eligible r region = true →
       sharedClient env region = inl client →
       listing_error r client = None →
       orchestrated (trace (sweeper env r region)) = [discovered env r client]
       ∧ length (discovered env r client) = fetched_count r client
       ∧ result (sweeper env r region)
         = match result (SweepOrchestrator (discovered env r client)) with
           | Some oerr => Some (Errorf_w (sweeping_text r region) oerr)
           | None => None
           end)
  ∧ (∀ client,
       discovered env resourceMultiRegionAccessPoint client
       = map (build_MultiRegionAccessPoint env client)
           (fetched (ListMultiRegionAccessPoints (S3ControlClient client)
                       (AccountID client)))
       ∧ discovered env resourceObjectLambdaAccessPoint client
         = map (build_ObjectLambdaAccessPoint env client)
             (fetched (ListAccessPointsForObjectLambda (S3ControlClient client)
                         (AccountID client))))
  ∧ (∀ batch, batch ∈ orchestrated (trace (sweeper env r region)) →
       ∃ client, sharedClient env region = inl client
                 ∧ batch = discovered env r client
                 ∧ length batch = fetched_count r client)
  ∧ (∀ err, result (sweeper env r region) = Some err →
       (∃ cerr, sharedClient env region = inr cerr
                ∧ err = Errorf_s "error getting client: " cerr)
       ∨ (∃ client lerr, sharedClient env region = inl client
                         ∧ listing_error r client = Some lerr
                         ∧ skipClass env lerr = false
                         ∧ err = Errorf_w (listing_text r region) lerr)
       ∨ (∃ client oerr, sharedClient env region = inl client
                         ∧ listing_error r client = None
                         ∧ result (SweepOrchestrator (discovered env r client)) = Some oerr
                         ∧ err = Errorf_w (sweeping_text r region) oerr)).
Proof.
  intros Hr.
  assert (Hne : r ≠ resourceAccessPoint) by (destruct Hr as [-> | ->]; discriminate).
  assert (Hlen : ∀ client, length (discovered env r client) = fetched_count r client).
  { intros client. destruct Hr as [-> | ->]; cbn [discovered fetched_count];
      apply length_map. }
  split_and!.
  - intros client page rs. apply sweepMultiRegionAccessPoints_range_spec.
  - intros client page rs. apply sweepObjectLambdaAccessPoints_range_spec.
  - intros reg client pages rs. rewrite sweepMultiRegionAccessPoints_pages_spec.
    reflexivity.
  - intros reg client pages rs. rewrite sweepObjectLambdaAccessPoints_pages_spec.
    reflexivity.
  - intros client Hel Hc He.
    rewrite (sweeper_finished env r region client Hel Hc He), SweepOrchestrator_spec.
    cbn [result trace fst snd]. split_and!.
    + rewrite orchestrated_GetClient, orchestrated_app, orchestrated_paging,
        orchestrated_Orchestrate, orchestrated_map_Delete. reflexivity.
    + apply Hlen.
    + rewrite returned_head by done.
      assert (discovery_errors env r client = []) as -> by (by destruct Hr as [-> | ->]).
      cbn [app]. unfold sweeping_error. by destruct (aggregate _).
  - intros client. split; reflexivity.
  - intros batch Hb.
    apply sweeper_orchestrated in Hb as (client & Hc & _ & ->).
    exists client. split_and!; [done..|]. apply Hlen.
  - intros err.
    destruct (sweeper_run_shape env r region)
      as [? ->|cerr ? ->|client lerr ? ? ? ->|client lerr ? ? ? ->|client ? ? ->];
      cbn [result fst].
    + discriminate.
    + intros [= <-]. left. eauto.
    + intros [= <-]. right. left. eauto 10.
    + destruct Hr as [-> | ->]; discriminate.
    + rewrite returned_head by done.
      assert (discovery_errors env r client = []) as -> by (by destruct Hr as [-> | ->]).
      cbn [app]. unfold sweeping_error.
      destruct (aggregate _) as [oerr|] eqn:Ho; [|discriminate].
      intros [= <-]. right. right. exists client, oerr.
      rewrite SweepOrchestrator_spec. cbn [result fst]. eauto.
Qed.

(** Two pages of one multi-region access point each: the orchestrator is
    handed two Sweepables, one per item. *)
Lemma every_item_builds_witness :
  orchestrated (trace (sweeper (ex_env ex_two_pages ex_lens [])
                         resourceMultiRegionAccessPoint "us-west-2"))
  = [[NewSweepResource resourceMultiRegionAccessPoint "123456789012:mrap-a"
        (ex_client ex_two_pages ex_lens []);
      NewSweepResource resourceMultiRegionAccessPoint "123456789012:mrap-b"
        (ex_client ex_two_pages ex_lens [])]]
  ∧ length (discovered (ex_env ex_two_pages ex_lens []) resourceMultiRegionAccessPoint
              (ex_client ex_two_pages ex_lens [])) = 2.
Proof.
  destruct (every_item_builds (ex_env ex_two_pages ex_lens [])
              resourceMultiRegionAccessPoint "us-west-2" (or_introl eq_refl))
    as (_ & _ & _ & _ & Hrun & _).
  destruct (Hrun (ex_client ex_two_pages ex_lens []) eq_refl eq_refl eq_refl)
    as (Horch & Hlen & _).
  split; [rewrite Horch; reflexivity|exact Hlen].
Defined.

(** ** The identifier codec *)

Section CodecFacts.

Variable sep : ascii.

Lemma Split_no_sep s : has_sep sep s = false → Split sep s = [s].
Proof.
  induction s as [|c s IH]; [reflexivity|]. cbn [has_sep Split].
  intros H. apply orb_false_iff in H as [Hc Hs].
  rewrite Hc, (IH Hs). reflexivity.
Qed.

Lemma Split_component s rest :
  has_sep sep s = false →
  Split sep (s +:+ String sep rest) = s :: Split sep rest.
Proof.
  induction s as [|c s IH]; intros H.
  - change (Split sep (String sep rest) = "" :: Split sep rest).
    cbn [Split]. by rewrite bool_decide_eq_true_2.
  - cbn [has_sep] in H. apply orb_false_iff in H as [Hc Hs].
    change (Split sep (String c (s +:+ String sep rest)) = String c s :: Split sep rest).
    cbn [Split]. rewrite Hc, (IH Hs). reflexivity.
Qed.

Lemma Join_cons s s' rest :
  Join (s :: s' :: rest) (String sep "") = s +:+ String sep (Join (s' :: rest) (String sep "")).
Proof. reflexivity. Qed.

Lemma decode_encode key : valid_key sep key = true → decode sep (encode sep key) = key.
Proof.
  unfold decode, encode. destruct key as [|s key]; [discriminate|].
  cbn [valid_key]. revert s. induction key as [|s' key IH]; intros s Hv.
  - cbn in Hv. rewrite andb_true_r in Hv. apply negb_true_iff in Hv.
    by apply Split_no_sep.
  - cbn [forallb] in Hv. apply andb_true_iff in Hv as [Hs Hv].
    apply negb_true_iff in Hs.
    rewrite Join_cons, (Split_component _ _ Hs), (IH s' Hv). reflexivity.
Qed.

End CodecFacts.

Lemma parse_pair_encode sep accountID name :
  valid_key sep [accountID; name] = true →
  ResourceID.parse_pair sep (encode sep [accountID; name]) = inl (accountID, name).
Proof.
  intros Hpair. unfold ResourceID.parse_pair. by rewrite (decode_encode sep _ Hpair).
Qed.

(** C7. Decoding an encoded natural key gives the key back, for every
    key of one or more components none of which holds the delimiter.
    For each resource kind the parser applied to the identifier its
    helper creates returns the key: for an access point, whose helper
    takes the ARN of the listed item and fails on a malformed one, the
    account id and name extracted from the ARN; for a multi-region access
    point, an object lambda access point and a storage lens
    configuration, the account id and name the helper was given.  The
    identifier a sweeper sets on the Sweepable of a listed access point
    parses back in the same way. *)
Theorem codec_round_trip (sep : ascii) (parseARN : string → string * string + error)
    (key : list string) (arn accountID name : string) :
  valid_key sep key = true →
  valid_key sep [accountID; name] = true →
  parseARN arn = inl (accountID, name) →
  decode sep (encode sep key) = key
  ∧ (∃ id, ResourceID.AccessPointCreateResourceID sep parseARN arn = inl id
           ∧ ResourceID.AccessPointParseResourceID sep id = inl (accountID, name))
  ∧ ResourceID.MultiRegionAccessPointParseResourceID sep
      (ResourceID.MultiRegionAccessPointCreateResourceID sep accountID name)
    = inl (accountID, name)
  ∧ ResourceID.ObjectLambdaAccessPointParseResourceID sep
      (ResourceID.ObjectLambdaAccessPointCreateResourceID sep accountID name)
    = inl (accountID, name)
  ∧ ResourceID.StorageLensConfigurationParseResourceID sep
      (ResourceID.StorageLensConfigurationCreateResourceID sep accountID name)
    = inl (accountID, name)
  ∧ (∀ arn' err, parseARN arn' = inr err →
       ResourceID.AccessPointCreateResourceID sep parseARN arn' = inr err)
  ∧ (∀ shared skip client,
       ∃ d, build_AccessPoint (ResourceID.env sep parseARN shared skip) client
              {| AccessPointArn := Some arn |} = inl d
            ∧ ResourceID.AccessPointParseResourceID sep (sr_Id d) = inl (accountID, name)).
Proof.
  intros Hkey Hpair Harn.
  pose proof (parse_pair_encode sep accountID name Hpair) as Hrt.
  split_and!.
  - by apply decode_encode.
  - exists (encode sep [accountID; name]). split; [|exact Hrt].
    unfold ResourceID.AccessPointCreateResourceID. by rewrite Harn.
  - exact Hrt.
  - exact Hrt.
  - exact Hrt.
  - intros arn' err Herr. unfold ResourceID.AccessPointCreateResourceID. by rewrite Herr.
  - intros shared skip client.
    exists (NewSweepResource resourceAccessPoint (encode sep [accountID; name]) client).
    split; [|exact Hrt].
    unfold build_AccessPoint, ResourceID.env. cbn [AccessPointCreateResourceID].
    change (ToString (AccessPointArn {| AccessPointArn := Some arn |})) with arn.
    unfold ResourceID.AccessPointCreateResourceID. by rewrite Harn.
Qed.

Lemma codec_round_trip_witness :
  AccessPointCreateResourceID (ex_env ex_two_pages ex_lens [])
    "arn:aws:s3:us-east-1:123456789012:accesspoint/a"
  = ResourceID.AccessPointCreateResourceID ex_colon ex_parseARN
      "arn:aws:s3:us-east-1:123456789012:accesspoint/a"
  ∧ ResourceID.AccessPointCreateResourceID ex_colon ex_parseARN
      "arn:aws:s3:us-east-1:123456789012:accesspoint/a" = inl "123456789012:a"
  ∧ ResourceID.AccessPointParseResourceID ex_colon "123456789012:a"
    = inl ("123456789012", "a")
  ∧ decode ex_colon (encode ex_colon ["123456789012"; "tf-acc-test"; "v1"])
    = ["123456789012"; "tf-acc-test"; "v1"].
Proof.
  destruct (codec_round_trip ex_colon ex_parseARN
              ["123456789012"; "tf-acc-test"; "v1"]
              "arn:aws:s3:us-east-1:123456789012:accesspoint/a" "123456789012" "a"
              eq_refl eq_refl eq_refl) as (Hdec & (id & Hid & Hparse) & _).
  split_and!; [reflexivity|reflexivity| |exact Hdec].
  assert (id = "123456789012:a") as <-; [|exact Hparse].
  assert (Hc : ResourceID.AccessPointCreateResourceID ex_colon ex_parseARN
                 "arn:aws:s3:us-east-1:123456789012:accesspoint/a"
               = inl "123456789012:a") by reflexivity.
  rewrite Hc in Hid. by injection Hid.
Defined.

(** ** Registration and ordering *)

Lemma init_registers env :
  init env
  = Some (<["aws_s3control_storage_lens_configuration" :=
              {| Name := "aws_s3control_storage_lens_configuration";
                 F := sweepStorageLensConfigurations env;
                 Dependencies := [] |}]>
         (<["aws_s3control_object_lambda_access_point" :=
              {| Name := "aws_s3control_object_lambda_access_point";
                 F := sweepObjectLambdaAccessPoints env;
                 Dependencies := [] |}]>
         (<["aws_s3control_multi_region_access_point" :=
              {| Name := "aws_s3control_multi_region_access_point";
                 F := sweepMultiRegionAccessPoints env;
                 Dependencies := [] |}]>
         (<["aws_s3_access_point" := access_point_sweeper env]> ∅)))).
Proof.
  unfold init, AddTestSweepers.
  rewrite lookup_empty. cbn [mbind option_bind].
  rewrite lookup_insert_ne by done. rewrite lookup_empty. cbn [mbind option_bind].
  rewrite !lookup_insert_ne by done. rewrite lookup_empty. cbn [mbind option_bind].
  rewrite !lookup_insert_ne by done. rewrite lookup_empty. reflexivity.
Qed.

Section Ordering.

Variable env : Env.
Variable region : string.

Lemma sweeperFuncs_registers :
  sweeperFuncs env
  = <["aws_s3control_storage_lens_configuration" :=
        {| Name := "aws_s3control_storage_lens_configuration";
           F := sweepStorageLensConfigurations env;
           Dependencies := [] |}]>
    (<["aws_s3control_object_lambda_access_point" :=
        {| Name := "aws_s3control_object_lambda_access_point";
           F := sweepObjectLambdaAccessPoints env;
           Dependencies := [] |}]>
    (<["aws_s3control_multi_region_access_point" :=
        {| Name := "aws_s3control_multi_region_access_point";
           F := sweepMultiRegionAccessPoints env;
           Dependencies := [] |}]>
    (<["aws_s3_access_point" := access_point_sweeper env]> ∅))).
Proof. unfold sweeperFuncs. by rewrite init_registers. Qed.

Lemma sweeperFuncs_ap : sweeperFuncs env !! ap_name = Some (access_point_sweeper env).
Proof.
  rewrite sweeperFuncs_registers. unfold ap_name.
  rewrite !lookup_insert_ne by done. apply lookup_insert_eq.
Qed.

Lemma sweeperFuncs_olap :
  ∃ s, sweeperFuncs env !! olap_name = Some s ∧ Dependencies s = [].
Proof.
  rewrite sweeperFuncs_registers. unfold olap_name.
  rewrite lookup_insert_ne by done. rewrite lookup_insert_eq. eauto.
Qed.

Lemma sweeperFuncs_other name s :
  name ≠ ap_name → sweeperFuncs env !! name = Some s → Dependencies s = [].
Proof.
  intros Hne. rewrite sweeperFuncs_registers. unfold ap_name in Hne.
  rewrite !lookup_insert. repeat case_decide; intros Hs; by simplify_eq.
Qed.

Lemma sweeperFuncs_size : size (sweeperFuncs env) = 4.
Proof.
  rewrite sweeperFuncs_registers.
  rewrite !map_size_insert_None, map_size_empty; [reflexivity|..];
    rewrite ?lookup_insert_ne by done; apply lookup_empty.
Qed.

Lemma run_unregistered sweepers fuel name ran :
  sweepers !! name = None →
  runSweeperWithRegion sweepers region (S fuel) name ran = (ran, []).
Proof. intros H. cbn [runSweeperWithRegion]. by rewrite H. Qed.

Lemma run_leaf sweepers fuel name s ran :
  sweepers !! name = Some s →
  Dependencies s = [] →
  runSweeperWithRegion sweepers region (S fuel) name ran
  = if bool_decide (name ∈ ran) then (ran, [])
    else (name :: ran, sweeper_events region s name).
Proof.
  intros H Hd. cbn [runSweeperWithRegion]. rewrite H, Hd. cbn [foldl].
  case_bool_decide; [reflexivity|]. unfold sweeper_events.
  destruct (F s region). reflexivity.
Qed.

Lemma run_ap fuel ran :
  runSweeperWithRegion (sweeperFuncs env) region (S (S fuel)) ap_name ran
  = let '(ran1, t1) :=
      runSweeperWithRegion (sweeperFuncs env) region (S fuel) olap_name ran in
    if bool_decide (ap_name ∈ ran1) then (ran1, t1)
    else (ap_name :: ran1, t1 ++ sweeper_events region (access_point_sweeper env) ap_name).
Proof.
  remember (S fuel) as fuel'.
  cbn [runSweeperWithRegion]. rewrite sweeperFuncs_ap.
  cbn [Dependencies access_point_sweeper foldl]. fold olap_name.
  destruct (runSweeperWithRegion _ _ fuel' olap_name ran) as [ran1 t1].
  cbn [app]. case_bool_decide; [reflexivity|]. unfold sweeper_events.
  cbn [F access_point_sweeper]. destruct (sweepAccessPoints env region). reflexivity.
Qed.

Lemma ordered_app done t1 t2 :
  ordered done (t1 ++ t2) = ordered done t1 && ordered (done || olap_done t1) t2.
Proof.
  revert done. induction t1 as [|e t1 IH]; intros done.
  - cbn. by rewrite orb_false_r.
  - destruct e as [n|n e|n err]; cbn [app ordered olap_done existsb].
    + rewrite IH. fold (olap_done t1). cbn [orb]. by rewrite andb_assoc.
    + rewrite IH. fold (olap_done t1). reflexivity.
    + rewrite IH. fold (olap_done t1). by rewrite orb_assoc.
Qed.

Lemma olap_done_app t1 t2 : olap_done (t1 ++ t2) = olap_done t1 || olap_done t2.
Proof. apply existsb_app. Qed.

Lemma ordered_Inside done name t : ordered done (map (Inside name) t) = true.
Proof. induction t as [|e t IH]; [reflexivity|exact IH]. Qed.

Lemma olap_done_Inside name t : olap_done (map (Inside name) t) = false.
Proof. induction t as [|e t IH]; [reflexivity|exact IH]. Qed.

Lemma ordered_sweeper_events done s name :
  ordered done (sweeper_events region s name) = negb (String.eqb name ap_name) || done.
Proof.
  unfold sweeper_events. cbn [app ordered].
  rewrite ordered_app, ordered_Inside. cbn. by rewrite andb_true_r.
Qed.

Lemma olap_done_sweeper_events s name :
  olap_done (sweeper_events region s name) = String.eqb name olap_name.
Proof.
  unfold sweeper_events. rewrite !olap_done_app, olap_done_Inside. cbn.
  by rewrite orb_false_r.
Qed.

Lemma Begin_in_sweeper_events s name : Begin name ∈ sweeper_events region s name.
Proof. unfold sweeper_events. set_solver. Qed.

Lemma run_preserves fuel name ran t :
  harness_inv ran t →
  ∃ ran' t',
    runSweeperWithRegion (sweeperFuncs env) region (S (S fuel)) name ran = (ran', t')
    ∧ harness_inv ran' (t ++ t')
    ∧ (∀ n, n ∈ ran → n ∈ ran')
    ∧ (is_Some (sweeperFuncs env !! name) → name ∈ ran').
Proof.
  intros (Hord & Hdone & Hbegan).
  destruct sweeperFuncs_olap as (so & Hso & Hsod).
  assert (Hleaf : ∀ f' n s ran0 t0,
            n ≠ ap_name →
            sweeperFuncs env !! n = Some s → Dependencies s = [] →
            harness_inv ran0 t0 →
            ∃ ran' t',
              runSweeperWithRegion (sweeperFuncs env) region (S f') n ran0 = (ran', t')
              ∧ harness_inv ran' (t0 ++ t')
              ∧ (∀ m, m ∈ ran0 → m ∈ ran')
              ∧ n ∈ ran').
  { intros f' n s ran0 t0 Hn Hs Hd (Ho & Hdn & Hb).
    rewrite (run_leaf _ _ _ _ _ Hs Hd). case_bool_decide as Hin.
    - exists ran0, []. rewrite app_nil_r. by repeat split.
    - exists (n :: ran0), (sweeper_events region s n). split_and!; [done| |set_solver..].
      unfold harness_inv.
      rewrite ordered_app, Ho, ordered_sweeper_events, olap_done_app,
        olap_done_sweeper_events.
      apply String.eqb_neq in Hn. rewrite Hn. cbn [negb orb andb]. split_and!.
      + reflexivity.
      + intros Hm. apply elem_of_cons in Hm as [<-|Hm].
        * rewrite String.eqb_refl. by rewrite orb_true_r.
        * by rewrite Hdn.
      + intros Hm. apply elem_of_cons in Hm as [Heq|Hm].
        * apply String.eqb_neq in Hn. congruence.
        * set_solver. }
  destruct (decide (name = ap_name)) as [->|Hne].
  - rewrite run_ap.
    destruct (Hleaf fuel olap_name so ran t) as (ran1 & t1 & -> & (Ho1 & Hd1 & Hb1) & Hmono & Hin1);
      [done..|].
    case_bool_decide as Hap.
    + exists ran1, t1. split_and!; [done|done|done|]. by intros _.
    + exists (ap_name :: ran1),
        (t1 ++ sweeper_events region (access_point_sweeper env) ap_name).
      split_and!; [done| |set_solver..].
      unfold harness_inv. rewrite app_assoc.
      rewrite ordered_app, Ho1, ordered_sweeper_events, (Hd1 Hin1), olap_done_app,
        (Hd1 Hin1).
      cbn [negb orb andb]. rewrite orb_true_r. split_and!; [done|done|].
      intros _. apply elem_of_app. right. apply Begin_in_sweeper_events.
  - destruct (sweeperFuncs env !! name) as [s|] eqn:Hs.
    + destruct (Hleaf (S fuel) name s ran t) as (ran' & t' & ? & ? & ? & ?);
        [done|done|by eapply sweeperFuncs_other|done|].
      exists ran', t'. split_and!; [done|done|done|]. by intros _.
    + rewrite (run_unregistered _ _ _ _ Hs). exists ran, []. rewrite app_nil_r.
      split_and!; [done|done|done|]. by intros [? ?].
Qed.

End Ordering.

Lemma runSweepers_preserves env region order ran t :
  harness_inv ran t →
  ∃ ran' t',
    foldl (λ '(ran, t) name,
             let '(ran, t') :=
               runSweeperWithRegion (sweeperFuncs env) region
                 (S (size (sweeperFuncs env))) name ran in
             (ran, t ++ t'))
          (ran, t) order = (ran', t')
    ∧ harness_inv ran' t'
    ∧ (∀ n, n ∈ ran → n ∈ ran')
    ∧ (∀ n, n ∈ order → is_Some (sweeperFuncs env !! n) → n ∈ ran').
Proof.
  rewrite sweeperFuncs_size.
  revert ran t. induction order as [|name order IH]; intros ran t Hinv.
  - exists ran, t. split_and!; [done|done|done|]. intros n Hn. by apply elem_of_nil in Hn.
  - cbn [foldl].
    destruct (run_preserves env region 3 name ran t Hinv)
      as (ran1 & t1 & -> & Hinv1 & Hmono1 & Hname).
    destruct (IH ran1 (t ++ t1) Hinv1) as (ran' & t' & -> & Hinv' & Hmono' & Hall).
    exists ran', t'. split_and!; [done|done|by auto|].
    intros n Hn Hreg. apply elem_of_cons in Hn as [->|Hn].
    + apply Hmono', Hname, Hreg.
    + by apply Hall.
Qed.

Lemma ordered_before_Begin done t1 t2 :
  ordered done (t1 ++ Begin ap_name :: t2) = true → done = true ∨ olap_done t1 = true.
Proof.
  rewrite ordered_app. cbn [ordered]. rewrite String.eqb_refl. cbn [negb orb].
  intros H. apply andb_true_iff in H as [_ H]. apply andb_true_iff in H as [H _].
  by apply orb_true_iff in H.
Qed.

Lemma olap_done_elem t : olap_done t = true → ∃ err, End olap_name err ∈ t.
Proof.
  unfold olap_done. rewrite existsb_exists. intros ([n|n e|n err] & Hin & Hn); try done.
  apply String.eqb_eq in Hn as ->. exists err. by apply list_elem_of_In.
Qed.

(** C8. [init] registers "aws_s3_access_point" with exactly one
    dependency, "aws_s3control_object_lambda_access_point"; hence in a
    run of the full registry, in whatever order the names are visited,
    the object lambda access point sweeper has returned before the
    access point sweeper starts, and the access point sweeper does start
    when its name is visited. *)
Theorem object_lambda_swept_before_access_points
    (env : Env) (region : string) (order : list string) :
  (∃ s, init env ≫= (λ sweepers, sweepers !! "aws_s3_access_point") = Some s
        ∧ Name s = "aws_s3_access_point"
        ∧ Dependencies s = ["aws_s3control_object_lambda_access_point"]
        ∧ F s = sweepAccessPoints env)
  ∧ (∀ t1 t2,
       snd (runSweepers (sweeperFuncs env) region order)
       = t1 ++ Begin "aws_s3_access_point" :: t2 →
       ∃ err, End "aws_s3control_object_lambda_access_point" err ∈ t1)
  ∧ ("aws_s3_access_point" ∈ order →
     Begin "aws_s3_access_point" ∈ snd (runSweepers (sweeperFuncs env) region order)).
Proof.
  split_and!.
  - exists (access_point_sweeper env). split_and!; [|reflexivity..].
    rewrite init_registers. cbn [mbind option_bind].
    rewrite !lookup_insert_ne by done. apply lookup_insert_eq.
  - intros t1 t2 Ht.
    destruct (runSweepers_preserves env region order [] [])
      as (ran & t & Hrun & (Hord & _ & _) & _ & _).
    { split_and!; [done|..]; intros Hin; by apply elem_of_nil in Hin. }
    unfold runSweepers in Ht. rewrite Hrun in Ht. cbn [snd] in Ht. subst t.
    apply ordered_before_Begin in Hord as [?|Hdone]; [done|].
    by apply olap_done_elem.
  - intros Hin.
    destruct (runSweepers_preserves env region order [] [])
      as (ran & t & Hrun & (_ & _ & Hbegan) & _ & Hall).
    { split_and!; [done|..]; intros Hnil; by apply elem_of_nil in Hnil. }
    unfold runSweepers. rewrite Hrun. cbn [snd]. apply Hbegan, Hall; [done|].
    fold ap_name. by rewrite sweeperFuncs_ap.
Qed.

Lemma object_lambda_swept_before_access_points_witness :
  Begin "aws_s3_access_point"
  ∈ snd (runSweepers (sweeperFuncs (ex_env ex_two_pages ex_lens [])) "us-east-1"
           ["aws_s3_access_point"; "aws_s3control_multi_region_access_point";
            "aws_s3control_object_lambda_access_point";
            "aws_s3control_storage_lens_configuration"]).
Proof.
  destruct (object_lambda_swept_before_access_points
              (ex_env ex_two_pages ex_lens []) "us-east-1"
              ["aws_s3_access_point"; "aws_s3control_multi_region_access_point";
               "aws_s3control_object_lambda_access_point";
               "aws_s3control_storage_lens_configuration"])
    as (_ & _ & Hbegins).
  apply Hbegins. apply list_elem_of_here.
Defined.

(** * Further properties of the sweepers *)

(** ** Client acquisition *)

Lemma length_append (s1 s2 : string) :
  String.length (s1 +:+ s2) = String.length s1 + String.length s2.
Proof.
  induction s1 as [|c s1 IH]; [reflexivity|].
  change (S (String.length (s1 +:+ s2)) = S (String.length s1 + String.length s2)).
  by rewrite IH.
Qed.

Lemma contains_ErrorString s e : contains (ErrorString s) e → e = ErrorString s.
Proof. by inversion 1. Qed.

Lemma acquisitions_paging r client n : acquisitions (paging r client n) = [].
Proof. unfold paging. induction n as [|n IH]; [reflexivity|exact IH]. Qed.

Lemma acquisitions_map_Delete rs : acquisitions (map Delete rs) = [].
Proof. induction rs as [|r rs IH]; [reflexivity|exact IH]. Qed.

Lemma acquisitions_app t1 t2 : acquisitions (t1 ++ t2) = acquisitions t1 ++ acquisitions t2.
Proof. apply omap_app. Qed.

(** X1. When the client of the region cannot be acquired, a sweeper
    returns an error whose text is "error getting client: " followed by
    the text of the cause; the cause is printed, not wrapped, so it
    cannot be reached from the returned error; and nothing is listed,
    orchestrated or deleted. *)
Theorem client_failure_is_reported_as_text
    (env : Env) (r : Resource) (region : string) (err : error) :
  eligible r region = true →
  sharedClient env region = inr err →
  result (sweeper env r region)
  = Some (ErrorString ("error getting client: " +:+ Error err))
  ∧ (∀ e, result (sweeper env r region) = Some e → ¬ contains e err)
  ∧ trace (sweeper env r region) = [GetClient region].
Proof.
  intros Hel Hc. rewrite (sweeper_no_client env r region err Hel Hc).
  cbn [result trace fst snd]. split_and!; [reflexivity| |reflexivity].
  intros e [= <-] Hcont. apply contains_ErrorString in Hcont.
  apply (f_equal Error) in Hcont. cbn [Error Errorf_s] in Hcont.
  apply (f_equal String.length) in Hcont. rewrite length_append in Hcont.
  cbn in Hcont. lia.
Qed.

Lemma client_failure_is_reported_as_text_witness :
  result (sweeper (ex_env ex_two_pages ex_lens []) resourceObjectLambdaAccessPoint
            "cn-north-1")
  = Some (ErrorString "error getting client: no valid credential sources found").
Proof.
  destruct (client_failure_is_reported_as_text
              (ex_env ex_two_pages ex_lens []) resourceObjectLambdaAccessPoint "cn-north-1"
              (ErrorString "no valid credential sources found") eq_refl eq_refl)
    as (Hres & _).
  exact Hres.
Defined.

(** X9. Where no region guard applies (access points and object lambda
    access points everywhere, multi-region access points in us-west-2,
    storage lens configurations outside us-gov-east-1 and us-gov-west-1)
    the first thing a sweeper does is to acquire the client of the
    region, and it acquires it once. *)
Theorem eligible_region_acquires_client_first
    (env : Env) (r : Resource) (region : string) :
  r = resourceAccessPoint
  ∨ r = resourceObjectLambdaAccessPoint
  ∨ (r = resourceMultiRegionAccessPoint ∧ region = "us-west-2")
  ∨ (r = resourceStorageLensConfiguration
     ∧ region ≠ "us-gov-east-1" ∧ region ≠ "us-gov-west-1") →
  head (trace (sweeper env r region)) = Some (GetClient region)
  ∧ acquisitions (trace (sweeper env r region)) = [region].
Proof.
  intros H.
  assert (Hel : eligible r region = true).
  { destruct H as [->|[->|[[-> ->]|(-> & He & Hw)]]]; cbn [eligible]; try reflexivity.
    apply negb_true_iff, orb_false_iff. split; by apply String.eqb_neq. }
  clear H.
  destruct (sharedClient env region) as [client|err] eqn:Hc.
  2: { rewrite (sweeper_no_client env r region err Hel Hc). by split. }
  destruct (listing_error r client) as [e|] eqn:He.
  2: { rewrite (sweeper_finished env r region client Hel Hc He). cbn [trace snd head].
       split; [reflexivity|].
       change (acquisitions ([GetClient region] ++ paging r client (listing_calls r client)
                 ++ [Orchestrate (discovered env r client)]
                 ++ map Delete (discovered env r client)) = [region]).
       by rewrite !acquisitions_app, acquisitions_paging, acquisitions_map_Delete. }
  destruct (skipClass env e) eqn:Hs.
  - rewrite (sweeper_skip env r region client e Hel Hc He Hs). cbn [trace snd head].
    split; [reflexivity|].
    change (acquisitions ([GetClient region] ++ paging r client (listing_calls r client)
              ++ [Log (skip_text r region e)]) = [region]).
    by rewrite !acquisitions_app, acquisitions_paging.
  - rewrite (sweeper_fatal env r region client e Hel Hc He Hs). cbn [trace snd head].
    split; [reflexivity|].
    change (acquisitions ([GetClient region] ++ paging r client (listing_calls r client))
            = [region]).
    by rewrite !acquisitions_app, acquisitions_paging.
Qed.

Lemma eligible_region_acquires_client_first_witness :
  acquisitions (trace (sweeper (ex_env ex_two_pages ex_lens [])
                         resourceStorageLensConfiguration "eu-west-1")) = ["eu-west-1"].
Proof.
  apply (eligible_region_acquires_client_first (ex_env ex_two_pages ex_lens [])
           resourceStorageLensConfiguration "eu-west-1").
  right. right. right. split_and!; [reflexivity|..]; intros Heq; discriminate Heq.
Defined.

(** ** What gets deleted *)

Lemma discovered_resource env r client d :
  d ∈ discovered env r client → sr_resource d = r ∧ sr_meta d = client.
Proof.
  destruct r; cbn [discovered]; intros Hd.
  - unfold built_AccessPoints in Hd. apply list_elem_of_omap in Hd as (v & _ & Hv).
    unfold build_AccessPoint in Hv.
    destruct (AccessPointCreateResourceID env _); by simplify_eq.
  - apply list_elem_of_fmap in Hd as (v & -> & _). by split.
  - apply list_elem_of_fmap in Hd as (v & -> & _). by split.
  - apply list_elem_of_fmap in Hd as (v & -> & _). by split.
Qed.

(** X2. A sweeper attempts a deletion only in a region that passes its
    guard, with the client acquired for that region, after a listing
    that ended without any error, and only of a Sweepable of its own
    resource kind built from that listing: a listing cut short by an
    error, skip-worthy or not, is never swept. *)
Theorem deletions_follow_a_complete_listing
    (env : Env) (r : Resource) (region : string) (d : Sweepable) :
  d ∈ deletions (trace (sweeper env r region)) →
  eligible r region = true
  ∧ sharedClient env region = inl (sr_meta d)
  ∧ listing_error r (sr_meta d) = None
  ∧ sr_resource d = r
  ∧ d ∈ discovered env r (sr_meta d).
Proof.
  intros Hd.
  assert (Hel : eligible r region = true).
  { destruct (eligible r region) eqn:Hel; [reflexivity|].
    rewrite (sweeper_ineligible env r region Hel) in Hd. by apply elem_of_nil in Hd. }
  apply sweeper_deletions in Hd as (client & Hc & He & Hin).
  destruct (discovered_resource env r client d Hin) as [Hr <-].
  by split_and!.
Qed.

Lemma deletions_follow_a_complete_listing_witness :
  sharedClient (ex_env ex_two_pages ex_lens []) "us-west-2"
  = inl (ex_client ex_two_pages ex_lens [])
  ∧ listing_error resourceMultiRegionAccessPoint (ex_client ex_two_pages ex_lens []) = None.
Proof.
  destruct (deletions_follow_a_complete_listing
              (ex_env ex_two_pages ex_lens []) resourceMultiRegionAccessPoint "us-west-2"
              (NewSweepResource resourceMultiRegionAccessPoint "123456789012:mrap-b"
                 (ex_client ex_two_pages ex_lens [])))
    as (_ & Hc & He & _).
  - vm_compute. apply list_elem_of_further, list_elem_of_here.
  - split; [exact Hc|exact He].
Defined.

(** In a run that reaches the orchestrator, the batch handed over is the
    list of Sweepables built from the fetched pages, and with the
    orchestrator taken as one pass over the batch the deletions attempted
    are that list. *)
Lemma finished_run_deletes_what_it_discovered
    (env : Env) (r : Resource) (region : string) (client : AWSClient) :
  eligible r region = true →
  sharedClient env region = inl client →
  listing_error r client = None →
  deletions (trace (sweeper env r region)) = discovered env r client
  ∧ orchestrated (trace (sweeper env r region)) = [discovered env r client].
Proof.
  intros Hel Hc He. rewrite (sweeper_finished env r region client Hel Hc He).
  cbn [trace snd].
  rewrite deletions_GetClient, orchestrated_GetClient, deletions_app, orchestrated_app,
    deletions_paging, orchestrated_paging, deletions_Orchestrate, orchestrated_Orchestrate,
    deletions_map_Delete, orchestrated_map_Delete.
  by split.
Qed.

(** X4. In a run of the storage lens sweeper that reaches the
    orchestrator, every listed configuration whose ID is not
    "default-account-dashboard" has its deletion attempted; this
    includes an entry whose ID pointer is nil, which is swept under the
    empty configuration ID. *)
Theorem storage_lens_sweep_is_complete
    (env : Env) (region : string) (client : AWSClient)
    (v : ListStorageLensConfigurationEntry) :
  eligible resourceStorageLensConfiguration region = true →
  sharedClient env region = inl client →
  page_error (ListStorageLensConfigurations (S3ControlClient client) (AccountID client))
  = None →
  v ∈ fetched (ListStorageLensConfigurations (S3ControlClient client) (AccountID client)) →
  Id v ≠ Some "default-account-dashboard" →
  NewSweepResource resourceStorageLensConfiguration
    (StorageLensConfigurationCreateResourceID env (AccountID client) (default "" (Id v)))
    client
  ∈ deletions (trace (sweepStorageLensConfigurations env region)).
Proof.
  intros Hel Hc He Hv Hid.
  destruct (finished_run_deletes_what_it_discovered env resourceStorageLensConfiguration
              region client Hel Hc He) as [Hdel _].
  cbn [sweeper] in Hdel. rewrite Hdel. cbn [discovered].
  apply list_elem_of_fmap. exists v. split; [reflexivity|].
  apply list_elem_of_filter. split; [|exact Hv].
  unfold is_default_dashboard. apply String.eqb_neq.
  destruct (Id v) as [s|]; cbn; [congruence|discriminate].
Qed.

Lemma storage_lens_sweep_is_complete_witness :
  NewSweepResource resourceStorageLensConfiguration "123456789012:"
    (ex_client ex_two_pages (NextPageOK [ {| Id := None |} ] NoMorePages) [])
  ∈ deletions (trace (sweepStorageLensConfigurations
                        (ex_env ex_two_pages (NextPageOK [ {| Id := None |} ] NoMorePages) [])
                        "us-east-1")).
Proof.
  apply (storage_lens_sweep_is_complete
           (ex_env ex_two_pages (NextPageOK [ {| Id := None |} ] NoMorePages) [])
           "us-east-1"
           (ex_client ex_two_pages (NextPageOK [ {| Id := None |} ] NoMorePages) [])
           {| Id := None |}); try reflexivity.
  - apply list_elem_of_here.
  - discriminate.
Defined.

(** ** The order of the effects *)

Lemma Delete_split_after_prefix (pre t1 t2 : list event) (ds : list Sweepable) d :
  Forall (λ e, is_Delete e = false) pre →
  t1 ++ Delete d :: t2 = pre ++ map Delete ds →
  ∃ t1', t1 = pre ++ t1' ∧ t1' ++ Delete d :: t2 = map Delete ds.
Proof.
  revert t1. induction pre as [|e pre IH]; intros t1 Hpre Heq.
  - by exists t1.
  - apply Forall_cons in Hpre as [He Hpre].
    destruct t1 as [|e1 t1]; cbn in Heq; simplify_eq.
    destruct (IH t1 Hpre) as (t1' & -> & Ht1'); [done|]. by exists t1'.
Qed.

Lemma Forall_not_Delete_paging r client n :
  Forall (λ e, is_Delete e = false) (paging r client n).
Proof. unfold paging. apply Forall_replicate. reflexivity. Qed.

(** X5. The effects of a run are ordered: whenever a deletion is
    attempted, the client has been acquired and the batch holding the
    Sweepable has been handed to the orchestrator before it, and nothing
    but deletions follows it, so that every listing call of the run
    precedes every deletion. *)
Theorem nothing_but_deletions_after_a_deletion
    (env : Env) (r : Resource) (region : string)
    (t1 t2 : list event) (d : Sweepable) :
  trace (sweeper env r region) = t1 ++ Delete d :: t2 →
  (∀ e, e ∈ t2 → is_Delete e = true)
  ∧ GetClient region ∈ t1
  ∧ (∃ batch, Orchestrate batch ∈ t1 ∧ d ∈ batch).
Proof.
  intros Ht.
  assert (Hd : d ∈ deletions (trace (sweeper env r region))).
  { rewrite Ht, deletions_app. apply elem_of_app. right. apply list_elem_of_here. }
  destruct (deletions_follow_a_complete_listing env r region d Hd)
    as (Hel & Hc & He & _ & _).
  set (client := sr_meta d) in *.
  rewrite (sweeper_finished env r region client Hel Hc He) in Ht. cbn [trace snd] in Ht.
  set (ds := discovered env r client) in *.
  destruct (Delete_split_after_prefix
              (GetClient region :: paging r client (listing_calls r client)
                 ++ [Orchestrate ds]) t1 t2 ds d) as (t1' & -> & Hrest).
  { apply Forall_cons. split; [reflexivity|]. apply Forall_app. split.
    - apply Forall_not_Delete_paging.
    - by apply Forall_singleton. }
  { rewrite <- Ht. cbn [app]. by rewrite <- app_assoc. }
  assert (Hall : ∀ e, e ∈ t1' ++ Delete d :: t2 → ∃ d', e = Delete d' ∧ d' ∈ ds).
  { rewrite Hrest. intros e He'. apply list_elem_of_fmap in He' as (d' & -> & ?). eauto. }
  split_and!.
  - intros e He'. destruct (Hall e) as (d' & -> & _); [|reflexivity].
    apply elem_of_app. right. by apply list_elem_of_further.
  - apply elem_of_app. left. apply list_elem_of_here.
  - exists ds. split.
    + apply elem_of_app. left. apply list_elem_of_further, elem_of_app. right.
      apply list_elem_of_here.
    + destruct (Hall (Delete d)) as (d' & [= <-] & ?); [|done].
      apply elem_of_app. right. apply list_elem_of_here.
Qed.

Lemma nothing_but_deletions_after_a_deletion_witness :
  ∃ batch,
    Orchestrate batch
    ∈ [GetClient "us-west-2";
       ListCall resourceMultiRegionAccessPoint "123456789012";
       ListCall resourceMultiRegionAccessPoint "123456789012";
       Orchestrate (discovered (ex_env ex_two_pages ex_lens [])
                      resourceMultiRegionAccessPoint (ex_client ex_two_pages ex_lens []));
       Delete (NewSweepResource resourceMultiRegionAccessPoint "123456789012:mrap-a"
                 (ex_client ex_two_pages ex_lens []))]
    ∧ NewSweepResource resourceMultiRegionAccessPoint "123456789012:mrap-b"
        (ex_client ex_two_pages ex_lens []) ∈ batch.
Proof.
  destruct (nothing_but_deletions_after_a_deletion
              (ex_env ex_two_pages ex_lens []) resourceMultiRegionAccessPoint "us-west-2"
              [GetClient "us-west-2";
               ListCall resourceMultiRegionAccessPoint "123456789012";
               ListCall resourceMultiRegionAccessPoint "123456789012";
               Orchestrate (discovered (ex_env ex_two_pages ex_lens [])
                              resourceMultiRegionAccessPoint
                              (ex_client ex_two_pages ex_lens []));
               Delete (NewSweepResource resourceMultiRegionAccessPoint "123456789012:mrap-a"
                         (ex_client ex_two_pages ex_lens []))]
              []
              (NewSweepResource resourceMultiRegionAccessPoint "123456789012:mrap-b"
                 (ex_client ex_two_pages ex_lens []))
              eq_refl) as (_ & _ & Hbatch).
  exact Hbatch.
Defined.

(** ** Empty listings and accounting *)

Lemma fetched_count_0 env r client :
  fetched_count r client = 0 →
  discovered env r client = [] ∧ discovery_errors env r client = [].
Proof.
  destruct r; cbn [fetched_count discovered discovery_errors]; intros H;
    apply length_zero_iff_nil in H; rewrite H; by split.
Qed.

(** X6. When the listing ends without error and its pages hold no item,
    a sweeper returns success: the orchestrator is still invoked, with
    the empty batch, and no deletion is attempted. *)
Theorem empty_listing_is_a_success
    (env : Env) (r : Resource) (region : string) (client : AWSClient) :
  eligible r region = true →
  sharedClient env region = inl client →
  listing_error r client = None →
  fetched_count r client = 0 →
  result (sweeper env r region) = None
  ∧ orchestrated (trace (sweeper env r region)) = [[]]
  ∧ deletions (trace (sweeper env r region)) = [].
Proof.
  intros Hel Hc He H0.
  destruct (fetched_count_0 env r client H0) as [Hd Herr].
  destruct (finished_run_deletes_what_it_discovered env r region client Hel Hc He)
    as [Hdel Horch].
  rewrite Hdel, Horch, Hd. split_and!; [|reflexivity..].
  rewrite (sweeper_finished env r region client Hel Hc He), Hd, Herr.
  by destruct r.
Qed.

Lemma empty_listing_is_a_success_witness :
  result (sweeper (ex_env (NextPageOK [] NoMorePages) ex_lens []) resourceAccessPoint
            "ap-south-1") = None
  ∧ orchestrated (trace (sweeper (ex_env (NextPageOK [] NoMorePages) ex_lens [])
                           resourceAccessPoint "ap-south-1")) = [[]]
  ∧ deletions (trace (sweeper (ex_env (NextPageOK [] NoMorePages) ex_lens [])
                        resourceAccessPoint "ap-south-1")) = [].
Proof.
  apply (empty_listing_is_a_success (ex_env (NextPageOK [] NoMorePages) ex_lens [])
           resourceAccessPoint "ap-south-1"
           (ex_client (NextPageOK [] NoMorePages) ex_lens []));
    reflexivity.
Defined.

Lemma built_AccessPoints_partition env client items :
  length (built_AccessPoints env client items) + length (build_errors env client items)
  = length items.
Proof.
  unfold built_AccessPoints, build_errors.
  induction items as [|v items IH]; [reflexivity|]. cbn [omap list_omap length].
  destruct (build_AccessPoint env client v); cbn [length]; lia.
Qed.

(** X7. The access point sweeper accounts for every listed item: each
    item of a page adds either one Sweepable or one error to what has
    been accumulated, never both and never neither, so that after the
    page the two counts have grown by the number of its items. *)
Theorem access_point_items_are_accounted_for
    (env : Env) (client : AWSClient) (page : list AccessPoint)
    (sweepResources : list Sweepable) (sweeperErrs : multierror) :
  length (fst (sweepAccessPoints_range env client page sweepResources sweeperErrs))
  + length (Errors_of (snd (sweepAccessPoints_range env client page
                              sweepResources sweeperErrs)))
  = length sweepResources + length (Errors_of sweeperErrs) + length page
  ∧ length sweepResources
    ≤ length (fst (sweepAccessPoints_range env client page sweepResources sweeperErrs))
  ∧ length (Errors_of sweeperErrs)
    ≤ length (Errors_of (snd (sweepAccessPoints_range env client page
                                sweepResources sweeperErrs))).
Proof.
  rewrite sweepAccessPoints_range_spec. cbn [fst snd].
  rewrite Errors_of_foldl_Append, !length_app.
  pose proof (built_AccessPoints_partition env client page). lia.
Qed.

(** ** When a sweeper succeeds *)

(** X8. A sweeper returns no error in exactly three situations: the
    region does not pass its guard; or the client is acquired, no
    identifier failed to build, and the listing stopped on a skip-worthy
    error; or the client is acquired, no identifier failed to build, the
    listing ended without error and no deletion failed. *)
Theorem sweeper_success_iff (env : Env) (r : Resource) (region : string) :
  result (sweeper env r region) = None
  ↔ eligible r region = false
    ∨ ∃ client,
        sharedClient env region = inl client
        ∧ discovery_errors env r client = []
        ∧ ((∃ e, listing_error r client = Some e ∧ skipClass env e = true)
           ∨ (listing_error r client = None
              ∧ failed_deletions (discovered env r client) = [])).
Proof.
  destruct (eligible r region) eqn:Hel.
  2: { rewrite (sweeper_ineligible env r region Hel). split; [by left|done]. }
  destruct (sharedClient env region) as [client|err] eqn:Hc.
  2: { rewrite (sweeper_no_client env r region err Hel Hc). cbn [result fst].
       split; [done|]. intros [?|(client & ? & _)]; done. }
  destruct (listing_error r client) as [e|] eqn:He.
  2: { rewrite (sweeper_finished env r region client Hel Hc He). cbn [result fst].
       rewrite returned_None, app_nil, sweeping_error_nil, aggregate_None. split.
       - intros [? ?]. right. exists client. split_and!; [done|done|]. by right.
       - intros [?|(client' & [= <-] & ? & [(e & ? & _)|[_ ?]])];
           [done|congruence|done]. }
  destruct (skipClass env e) eqn:Hs.
  - rewrite (sweeper_skip env r region client e Hel Hc He Hs). cbn [result fst].
    rewrite aggregate_None. split.
    + intros ?. right. exists client. split_and!; [done|done|]. left. eauto.
    + intros [?|(client' & [= <-] & ? & _)]; done.
  - rewrite (sweeper_fatal env r region client e Hel Hc He Hs). cbn [result fst].
    split; [done|].
    intros [?|(client' & [= <-] & _ & [(e' & He' & Hs')|[He' _]])]; [done|..].
    + rewrite He in He'. simplify_eq. congruence.
    + congruence.
Qed.

(** X10. In a run of the access point sweeper that reaches the
    orchestrator and returns an error, the error is a non-empty
    multierror whose members are the identifier-build errors, in listing
    order, followed by nothing when the orchestrator returned no error
    and otherwise by exactly one member: the orchestrator's error
    wrapped as a whole under the text "error sweeping S3 Access Points
    (region): ", however many deletions failed. *)
Theorem access_point_aggregate_members
    (env : Env) (region : string) (client : AWSClient) (agg : error) :
  sharedClient env region = inl client →
  page_error (ListAccessPoints (S3ControlClient client) (AccountID client)) = None →
  result (sweepAccessPoints env region) = Some agg →
  ∃ es, agg = MultiError es
        ∧ es ≠ []
        ∧ es = build_errors env client
                 (fetched (ListAccessPoints (S3ControlClient client) (AccountID client)))
               ++ match result (SweepOrchestrator
                                  (discovered env resourceAccessPoint client)) with
                  | Some oerr =>
                      [WrapError ("error sweeping S3 Access Points (" +:+ region +:+ "): "
                                    +:+ Error oerr) oerr]
                  | None => []
                  end
        ∧ take (length (discovery_errors env resourceAccessPoint client)) es
          = discovery_errors env resourceAccessPoint client
        ∧ length es
          = length (discovery_errors env resourceAccessPoint client)
            + (if decide (failed_deletions (discovered env resourceAccessPoint client) = [])
               then 0 else 1).
Proof.
  intros Hc He.
  rewrite (sweeper_finished env resourceAccessPoint region client eq_refl Hc He
           : sweepAccessPoints env region = _).
  cbn [result fst returned]. intros Hagg.
  apply aggregate_Some in Hagg as [-> Hne].
  eexists. split_and!; [reflexivity|exact Hne|..].
  - rewrite SweepOrchestrator_spec. cbn [result fst discovery_errors]. f_equal.
    unfold sweeping_error. destruct (aggregate _) as [oerr|]; [|reflexivity].
    unfold Errorf_w, sweeping_text. cbn [label]. by rewrite !append_assoc.
  - by rewrite take_app_length.
  - rewrite length_app. f_equal. unfold sweeping_error.
    destruct (failed_deletions _) as [|x xs]; cbn; [reflexivity|].
    by rewrite decide_False.
Qed.

Lemma access_point_aggregate_members_witness :
  ∃ es,
    MultiError
      [ErrorString "parsing S3 Access Point ARN (not-an-arn): arn: invalid prefix";
       Errorf_w "error sweeping S3 Access Points (us-east-1): "
         (MultiError
            [ErrorString "deleting 123456789012:b: AccessDenied";
             ErrorString "deleting 123456789012:c: AccessDenied"])]
    = MultiError es ∧ length es = 2.
Proof.
  destruct (access_point_aggregate_members
              (ex_env ex_two_pages ex_lens ["123456789012:b"; "123456789012:c"])
              "us-east-1"
              (ex_client ex_two_pages ex_lens ["123456789012:b"; "123456789012:c"])
              _ eq_refl eq_refl eq_refl) as (es & Hes & _ & _ & _ & Hlen).
  exists es. split; [exact Hes|exact Hlen].
Defined.

(** ** What a logged skip means *)

Lemma logs_paging r client n : logs (paging r client n) = [].
Proof. unfold paging. induction n as [|n IH]; [reflexivity|exact IH]. Qed.

Lemma logs_map_Delete rs : logs (map Delete rs) = [].
Proof. induction rs as [|r rs IH]; [reflexivity|exact IH]. Qed.

Lemma logs_app t1 t2 : logs (t1 ++ t2) = logs t1 ++ logs t2.
Proof. apply omap_app. Qed.

Lemma logs_GetClient region t : logs (GetClient region :: t) = logs t.
Proof. reflexivity. Qed.

Lemma logs_Orchestrate rs t : logs (Orchestrate rs :: t) = logs t.
Proof. reflexivity. Qed.

(** X11. A sweeper logs at most one line per run, and only when it
    skips: the line is either the region skip or the skip on a
    skip-worthy listing error, and a run that logs it hands nothing to
    the orchestrator and attempts no deletion.  A run that ends on the
    client acquisition error or on a fatal listing error, and a run that
    reaches the orchestrator, log nothing. *)
Theorem a_logged_skip_deletes_nothing
    (env : Env) (r : Resource) (region : string) :
  (∀ msg, msg ∈ logs (trace (sweeper env r region)) →
     logs (trace (sweeper env r region)) = [msg]
     ∧ orchestrated (trace (sweeper env r region)) = []
     ∧ deletions (trace (sweeper env r region)) = []
     ∧ ((eligible r region = false ∧ msg = ineligible_text r region)
        ∨ (∃ client e, sharedClient env region = inl client
                       ∧ listing_error r client = Some e
                       ∧ skipClass env e = true
                       ∧ msg = skip_text r region e)))
  ∧ length (logs (trace (sweeper env r region))) ≤ 1
  ∧ (∀ err, eligible r region = true → sharedClient env region = inr err →
       logs (trace (sweeper env r region)) = [])
  ∧ (∀ client e, eligible r region = true → sharedClient env region = inl client →
       listing_error r client = Some e → skipClass env e = false →
       logs (trace (sweeper env r region)) = [])
  ∧ (orchestrated (trace (sweeper env r region)) ≠ [] →
     logs (trace (sweeper env r region)) = []).
Proof.
  split_and!.
  - intros msg.
    destruct (sweeper_run_shape env r region)
      as [Hel ->|err ? ->|client e ? ? ? ->|client e Hc He Hs ->|client ? ? ->];
      cbn [trace snd];
      rewrite ?logs_GetClient, ?logs_app, ?logs_paging, ?logs_Orchestrate, ?logs_map_Delete;
      intros Hin; try (by apply elem_of_nil in Hin).
    + apply list_elem_of_singleton in Hin as ->.
      split_and!; [reflexivity..|]. by left.
    + cbn in Hin. apply list_elem_of_singleton in Hin as ->.
      rewrite orchestrated_GetClient, deletions_GetClient, orchestrated_app, deletions_app,
        orchestrated_paging, deletions_paging.
      split_and!; [reflexivity..|]. right. eauto 10.
  - destruct (sweeper_run_shape env r region)
      as [Hel ->|err ? ->|client e ? ? ? ->|client e Hc He Hs ->|client ? ? ->];
      cbn [trace snd];
      rewrite ?logs_GetClient, ?logs_app, ?logs_paging, ?logs_Orchestrate, ?logs_map_Delete;
      cbn; lia.
  - intros err Hel Hc. by rewrite (sweeper_no_client env r region err Hel Hc).
  - intros client e Hel Hc He Hs. rewrite (sweeper_fatal env r region client e Hel Hc He Hs).
    cbn [trace snd]. by rewrite logs_GetClient, logs_paging.
  - destruct (sweeper_run_shape env r region)
      as [Hel ->|err ? ->|client e ? ? ? ->|client e Hc He Hs ->|client ? ? ->];
      cbn [trace snd];
      rewrite ?logs_GetClient, ?logs_app, ?logs_paging, ?logs_Orchestrate, ?logs_map_Delete,
        ?orchestrated_GetClient, ?orchestrated_app, ?orchestrated_paging;
      cbn; intros Hne; done.
Qed.

Lemma a_logged_skip_deletes_nothing_witness :
  deletions (trace (sweeper (ex_env ex_bad_item_then_no_host ex_lens [])
                      resourceAccessPoint "us-east-1")) = []
  ∧ logs (trace (sweeper (ex_env ex_page_then_throttled ex_lens [])
                   resourceAccessPoint "us-east-1")) = [].
Proof.
  split.
  - destruct (a_logged_skip_deletes_nothing
                (ex_env ex_bad_item_then_no_host ex_lens []) resourceAccessPoint "us-east-1")
      as (Hlogged & _).
    destruct (Hlogged
                "[WARN] Skipping S3 Access Point sweep for us-east-1: lookup s3-control: no such host")
      as (_ & _ & Hdel & _).
    + vm_compute. apply list_elem_of_here.
    + exact Hdel.
  - destruct (a_logged_skip_deletes_nothing
                (ex_env ex_page_then_throttled ex_lens []) resourceAccessPoint "us-east-1")
      as (_ & _ & _ & Hfatal & _).
    apply (Hfatal (ex_client ex_page_then_throttled ex_lens []) ex_throttled);
      reflexivity.
Defined.

(** ** The table built by init *)

(** X12. [init] succeeds, no name being registered twice.  The table
    holds exactly the four sweepers of the package; each entry is
    registered under its own [Name] and runs the discovery function of
    its kind; only the access point sweeper declares dependencies; and
    every declared dependency is itself registered. *)
Theorem init_registry_is_well_formed (env : Env) :
  ∃ sweepers : gmap string Sweeper,
    init env = Some sweepers
    ∧ dom sweepers
      = ({[ "aws_s3_access_point"; "aws_s3control_multi_region_access_point";
            "aws_s3control_object_lambda_access_point";
            "aws_s3control_storage_lens_configuration" ]} : gset string)
    ∧ (∀ name s, sweepers !! name = Some s →
         Name s = name
         ∧ (name ≠ "aws_s3_access_point" → Dependencies s = [])
         ∧ (∀ dep, dep ∈ Dependencies s → is_Some (sweepers !! dep)))
    ∧ F <$> sweepers !! "aws_s3_access_point" = Some (sweepAccessPoints env)
    ∧ F <$> sweepers !! "aws_s3control_multi_region_access_point"
      = Some (sweepMultiRegionAccessPoints env)
    ∧ F <$> sweepers !! "aws_s3control_object_lambda_access_point"
      = Some (sweepObjectLambdaAccessPoints env)
    ∧ F <$> sweepers !! "aws_s3control_storage_lens_configuration"
      = Some (sweepStorageLensConfigurations env).
Proof.
  eexists. split; [apply init_registers|]. split_and!.
  - rewrite !dom_insert_L, dom_empty_L. set_solver.
  - intros name s. rewrite !lookup_insert. repeat case_decide; intros Hs; simplify_eq;
      cbn [Name Dependencies access_point_sweeper].
    + split_and!; [reflexivity|reflexivity|]. intros dep Hd. by apply elem_of_nil in Hd.
    + split_and!; [reflexivity|reflexivity|]. intros dep Hd. by apply elem_of_nil in Hd.
    + split_and!; [reflexivity|reflexivity|]. intros dep Hd. by apply elem_of_nil in Hd.
    + split_and!; [reflexivity|done|].
      intros dep Hd. apply list_elem_of_singleton in Hd as ->.
      rewrite lookup_insert_ne by done. rewrite lookup_insert_eq. eauto.
  - rewrite !lookup_insert_ne by done. by rewrite lookup_insert_eq.
  - rewrite !lookup_insert_ne by done. by rewrite lookup_insert_eq.
  - rewrite !lookup_insert_ne by done. by rewrite lookup_insert_eq.
  - by rewrite lookup_insert_eq.
Qed.

(** ** What gets listed *)

(** X13. Every listing call of a sweeper is for its own resource kind
    and for the account of the client acquired for the region; a run
    makes no listing call without having acquired that client. *)
Theorem listing_calls_are_for_the_own_kind_and_account
    (env : Env) (r r' : Resource) (region accountID : string) :
  ListCall r' accountID ∈ trace (sweeper env r region) →
  r' = r
  ∧ ∃ client, sharedClient env region = inl client
              ∧ accountID = AccountID client
              ∧ eligible r region = true.
Proof.
  intros Hin.
  assert (Hel : eligible r region = true).
  { destruct (eligible r region) eqn:Hel; [reflexivity|].
    rewrite (sweeper_ineligible env r region Hel) in Hin.
    apply list_elem_of_singleton in Hin. discriminate Hin. }
  assert (Hpag : ∀ client t,
            (∀ e, e ∈ t → ∀ k a, e ≠ ListCall k a) →
            ListCall r' accountID
            ∈ GetClient region :: paging r client (listing_calls r client) ++ t →
            r' = r ∧ accountID = AccountID client).
  { intros client t Ht He. apply elem_of_cons in He as [He|He]; [discriminate He|].
    apply elem_of_app in He as [He|He].
    - apply elem_of_replicate_inv in He. by simplify_eq.
    - by destruct (Ht _ He r' accountID). }
  destruct (sweeper_run_shape env r region)
    as [Hne Heq|err ? Heq|client e Hc ? ? Heq|client e Hc ? ? Heq|client Hc ? Heq];
    rewrite Heq in Hin; cbn [trace snd] in Hin.
  - congruence.
  - apply list_elem_of_singleton in Hin. discriminate Hin.
  - destruct (Hpag client []) as [-> ->]; [|by rewrite app_nil_r|by eauto].
    intros e' He'. by apply elem_of_nil in He'.
  - destruct (Hpag client [Log (skip_text r region e)]) as [-> ->]; [|done|by eauto].
    intros e' He' k a. by apply list_elem_of_singleton in He' as ->.
  - destruct (Hpag client (Orchestrate (discovered env r client)
                            :: map Delete (discovered env r client))) as [-> ->];
      [|done|by eauto].
    intros e' He' k a. apply elem_of_cons in He' as [->|He']; [done|].
    by apply list_elem_of_fmap in He' as (d & -> & _).
Qed.

Lemma listing_calls_are_for_the_own_kind_and_account_witness :
  resourceObjectLambdaAccessPoint = resourceObjectLambdaAccessPoint
  ∧ ∃ client, sharedClient (ex_env ex_two_pages ex_lens []) "eu-west-1" = inl client
              ∧ "123456789012" = AccountID client
              ∧ eligible resourceObjectLambdaAccessPoint "eu-west-1" = true.
Proof.
  apply (listing_calls_are_for_the_own_kind_and_account
           (ex_env ex_two_pages ex_lens []) resourceObjectLambdaAccessPoint
           resourceObjectLambdaAccessPoint "eu-west-1" "123456789012").
  vm_compute. apply list_elem_of_further, list_elem_of_here.
Defined.
